(** * pagespeed front-end analyzers: the permissive JavaScript lexer
      (net/instaweb/js/js_lexer.cc) and the resource tag scanner
      (resource_tag_scanner::ScanElement).

    Both programs are embedded as executable functions.  The lexer is a
    state machine over the fields of the C++ class [JsLexer]; every member
    function that mutates the object takes and returns the record. *)

From Stdlib Require Import List Ascii String Bool Arith Lia ZArith.
Import ListNotations.

(** ** Bytes *)

Module Ch.
Definition nul : ascii := "000"%char.
Definition tab : ascii := "009"%char.
Definition lf : ascii := "010"%char.
Definition ff : ascii := "012"%char.
Definition cr : ascii := "013"%char.
Definition space : ascii := " "%char.
Definition dquote : ascii := "034"%char.
Definition squote : ascii := "'"%char.
Definition backslash : ascii := "092"%char.
Definition slash : ascii := "/"%char.
Definition star : ascii := "*"%char.
Definition dot : ascii := "."%char.
Definition plus : ascii := "+"%char.
Definition minus : ascii := "-"%char.
Definition equal : ascii := "="%char.
Definition lbracket : ascii := "["%char.
Definition rbracket : ascii := "]"%char.
Definition underscore : ascii := "_"%char.
Definition dollar : ascii := "$"%char.

(** Comparison of two [uint8] values. *)
Definition le (a b : ascii) : bool := nat_of_ascii a <=? nat_of_ascii b.

(** [between lo hi ch] is [(ch >= lo) && (ch <= hi)]. *)
Definition between (lo hi ch : ascii) : bool := le lo ch && le ch hi.
End Ch.

(** [strchr s ch != NULL].  The C function also finds the terminating NUL
    of [s], so the byte 0 is "found" in every string. *)
Definition strchr (s : list ascii) (ch : ascii) : bool :=
  existsb (Ascii.eqb ch) s || Ascii.eqb ch Ch.nul.

Definition bytes (s : string) : list ascii := list_ascii_of_string s.

(** ** The lexer *)

Module JsLexer.

(** [JsKeywords::Flag]; only [kIsValue] is inspected by the lexer. *)
Inductive Flag := kNone | kIsValue | kIsReservedNonStrict | kIsReservedStrict.

Definition Flag_eqb (a b : Flag) : bool :=
  match a, b with
  | kNone, kNone | kIsValue, kIsValue
  | kIsReservedNonStrict, kIsReservedNonStrict
  | kIsReservedStrict, kIsReservedStrict => true
  | _, _ => false
  end.

(** [JsKeywords::Type].  The reserved words themselves are enumerated in
    js_keywords.h, which is not part of the sources at hand; the [n]-th
    member of that enumeration is [kKeyword n]. *)
Inductive JsType :=
| kKeyword (n : nat)
| kNotAKeyword
| kComment
| kWhitespace
| kLineSeparator
| kRegex
| kStringLiteral
| kNumber
| kOperator
| kIdentifier
| kEndOfInput.

(** A [StringPiece] pointing into the input buffer: offset and size. *)
Record Token := mkToken { tok_start : nat; tok_size : nat }.

Definition span (input : list ascii) (t : Token) : list ascii :=
  firstn (tok_size t) (skipn (tok_start t) input).

(** The data members of [JsLexer] (the keyword vector built by the
    constructor is never read by the scanning code and is left out).
    [index_] is an [int] that only ever holds a position between 0 and the
    size of the buffer; [token_start_index_] is also assigned -1. *)
Record t := mk {
  input_ : list ascii;
  index_ : nat;
  error_ : bool;
  last_token_may_end_value_ : bool;
  prev_char_ : ascii;
  token_start_ : ascii;
  backslash_mode_ : bool;
  within_brackets_ : bool;
  token_start_index_ : Z;
  seen_a_dot_ : bool
}.

Definition set_input (v : list ascii) (l : t) : t :=
  mk v (index_ l) (error_ l) (last_token_may_end_value_ l) (prev_char_ l)
     (token_start_ l) (backslash_mode_ l) (within_brackets_ l)
     (token_start_index_ l) (seen_a_dot_ l).
Definition set_index (v : nat) (l : t) : t :=
  mk (input_ l) v (error_ l) (last_token_may_end_value_ l) (prev_char_ l)
     (token_start_ l) (backslash_mode_ l) (within_brackets_ l)
     (token_start_index_ l) (seen_a_dot_ l).
Definition set_error (v : bool) (l : t) : t :=
  mk (input_ l) (index_ l) v (last_token_may_end_value_ l) (prev_char_ l)
     (token_start_ l) (backslash_mode_ l) (within_brackets_ l)
     (token_start_index_ l) (seen_a_dot_ l).
Definition set_may_end (v : bool) (l : t) : t :=
  mk (input_ l) (index_ l) (error_ l) v (prev_char_ l)
     (token_start_ l) (backslash_mode_ l) (within_brackets_ l)
     (token_start_index_ l) (seen_a_dot_ l).
Definition set_prev_char (v : ascii) (l : t) : t :=
  mk (input_ l) (index_ l) (error_ l) (last_token_may_end_value_ l) v
     (token_start_ l) (backslash_mode_ l) (within_brackets_ l)
     (token_start_index_ l) (seen_a_dot_ l).
Definition set_token_start (v : ascii) (l : t) : t :=
  mk (input_ l) (index_ l) (error_ l) (last_token_may_end_value_ l)
     (prev_char_ l) v (backslash_mode_ l) (within_brackets_ l)
     (token_start_index_ l) (seen_a_dot_ l).
Definition set_backslash_mode (v : bool) (l : t) : t :=
  mk (input_ l) (index_ l) (error_ l) (last_token_may_end_value_ l)
     (prev_char_ l) (token_start_ l) v (within_brackets_ l)
     (token_start_index_ l) (seen_a_dot_ l).
Definition set_within_brackets (v : bool) (l : t) : t :=
  mk (input_ l) (index_ l) (error_ l) (last_token_may_end_value_ l)
     (prev_char_ l) (token_start_ l) (backslash_mode_ l) v
     (token_start_index_ l) (seen_a_dot_ l).
Definition set_token_start_index (v : Z) (l : t) : t :=
  mk (input_ l) (index_ l) (error_ l) (last_token_may_end_value_ l)
     (prev_char_ l) (token_start_ l) (backslash_mode_ l) (within_brackets_ l)
     v (seen_a_dot_ l).
Definition set_seen_a_dot (v : bool) (l : t) : t :=
  mk (input_ l) (index_ l) (error_ l) (last_token_may_end_value_ l)
     (prev_char_ l) (token_start_ l) (backslash_mode_ l) (within_brackets_ l)
     (token_start_index_ l) v.

(** A pointer to a member function taking [(uint8 ch, int index)] and
    returning [bool]: it reads and may update the object. *)
Definition LexicalPredicate := t -> ascii -> nat -> bool * t.

Definition IsSpace : LexicalPredicate := fun l ch _ =>
  (strchr [Ch.space; Ch.tab; Ch.ff] ch, l).

Definition IsLineSeparator : LexicalPredicate := fun l ch _ =>
  (strchr [Ch.lf; Ch.cr] ch, l).

Definition IsNumber : LexicalPredicate := fun l ch _ =>
  let result (l : t) := (Ch.between "0" "9" ch || Ascii.eqb ch Ch.dot, l) in
  if Ascii.eqb ch Ch.dot then
    if seen_a_dot_ l then (false, l) else result (set_seen_a_dot true l)
  else result l.

Definition InBlockComment : LexicalPredicate := fun l ch _ =>
  let at_end := Ascii.eqb (prev_char_ l) Ch.star && Ascii.eqb ch Ch.slash in
  (negb at_end, l).

Definition InSingleLineComment : LexicalPredicate := fun l ch _ =>
  let at_end := Ascii.eqb ch Ch.lf || Ascii.eqb ch Ch.cr in
  (negb at_end, l).

Definition ProcessBackslash (l : t) (ch : ascii) : bool * t :=
  if backslash_mode_ l then (true, set_backslash_mode false l)
  else if Ascii.eqb ch Ch.backslash then (true, set_backslash_mode true l)
  else (false, l).

Definition IdentifierStart (l : t) (ch : ascii) : bool * t :=
  let (b, l) := ProcessBackslash l ch in
  if b then (true, l)
  else (Ch.between "a" "z" ch || Ch.between "A" "Z" ch ||
        Ascii.eqb ch Ch.underscore || Ascii.eqb ch Ch.dollar ||
        (127 <=? nat_of_ascii ch), l).

Definition InIdentifier : LexicalPredicate := fun l ch _ =>
  let (b, l) := IdentifierStart l ch in
  if b then (true, l) else (Ch.between "0" "9" ch, l).

Definition InOperator : LexicalPredicate := fun l ch _ =>
  let ts := token_start_ l in
  if ((Ascii.eqb ts Ch.plus || Ascii.eqb ts Ch.minus) && Ascii.eqb ch ts)
     || (Ascii.eqb ch Ch.equal &&
         (Ascii.eqb ts Ch.plus || Ascii.eqb ts Ch.minus ||
          Ascii.eqb ts Ch.slash || Ascii.eqb ts Ch.star))
  then (true, set_token_start Ch.nul l)
  else (false, set_may_end (strchr [")"; "]"; "}"]%char ch) l).

Definition InString : LexicalPredicate := fun l ch _ =>
  let (b, l) := ProcessBackslash l ch in
  if b then (true, l) else (negb (Ascii.eqb (token_start_ l) ch), l).

Definition InRegex : LexicalPredicate := fun l ch _ =>
  let (b, l) := ProcessBackslash l ch in
  if b then (true, l)
  else if Ascii.eqb ch Ch.slash then
    if negb (within_brackets_ l) then (false, l) else (true, l)
  else if Ascii.eqb ch Ch.lbracket then (true, set_within_brackets true l)
  else if Ascii.eqb ch Ch.rbracket then (true, set_within_brackets false l)
  else if Ascii.eqb ch Ch.lf then (false, set_error true l)
  else (true, l).

(** The [for] loop of [Consume]: [rest] is the bytes from [p] to [end], [i]
    the loop counter.  Returns the number of bytes the loop stepped over,
    whether it stopped because [p == end], and the object afterwards. *)
Fixpoint scan (predicate : LexicalPredicate) (rest : list ascii) (i : nat)
    (l : t) : nat * bool * t :=
  match rest with
  | [] => (0, true, l)
  | c :: rest' =>
      let (b, l1) := predicate l c i in
      if b then
        let '(n, at_end, l2) :=
          scan predicate rest' (S i) (set_prev_char c l1) in
        (S n, at_end, l2)
      else (0, false, l1)
  end.

Definition Consume (predicate : LexicalPredicate)
    (include_last_char ok_to_terminate_with_eof : bool) (l : t) : Token * t :=
  let start := index_ l in
  let l := set_prev_char (nth start (input_ l) Ch.nul) l in
  let '(n, at_end, l) := scan predicate (skipn (S start) (input_ l)) 1 l in
  let size := S n in
  let l := if at_end then
             set_error (error_ l || negb ok_to_terminate_with_eof) l
           else l in
  let size := if at_end then size
              else if include_last_char then S size else size in
  (mkToken start size, set_index (index_ l + size) l).

(** [Lex] assigns the data members one after the other. *)
Definition Lex (l : t) (input : list ascii) : t :=
  let l := set_input input l in
  let l := set_index 0 l in
  let l := set_error false l in
  let l := set_may_end false l in
  let l := set_prev_char Ch.nul l in
  let l := set_token_start Ch.nul l in
  let l := set_backslash_mode false l in
  let l := set_within_brackets false l in
  let l := set_token_start_index (-1)%Z l in
  set_seen_a_dot false l.

Definition HasError (l : t) : bool := error_ l.

Section WithKeywords.

(** [JsKeywords::Lookup(name, &flag)], from js_keywords.h: the keyword
    spelled [name] ([None] for [kNotAKeyword]) and its flag. *)
Variable Lookup : list ascii -> option nat * Flag.

Definition IdentifierOrKeyword (name : list ascii) (l : t) : JsType * t :=
  let (type, flag) := Lookup name in
  match type with
  | None => (kIdentifier, set_may_end true l)
  | Some n => (kKeyword n, set_may_end (Flag_eqb flag kIsValue) l)
  end.

Definition NumberOrDot (number_or_dot : list ascii) (l : t) : JsType * t :=
  if list_eq_dec ascii_dec number_or_dot [Ch.dot]
  then (kOperator, set_may_end false l)
  else (kNumber, set_may_end true l).

(** [ConsumeSlash].  The guard [index_ < int(input_.size() - 1)] is written
    with the truncated subtraction of [nat]; the two agree, the buffer
    being non-empty whenever a [/] has been seen. *)
Definition ConsumeSlash (l : t) : JsType * Token * t :=
  let operator (l : t) :=
    let (token, l) := Consume InOperator false true l in
    (kOperator, token, set_may_end false l) in
  if index_ l <? List.length (input_ l) - 1 then
    let next := nth (index_ l + 1) (input_ l) Ch.nul in
    if Ascii.eqb next Ch.slash then
      let (token, l) := Consume InSingleLineComment false true l in
      (kComment, token, l)
    else if Ascii.eqb next Ch.star then
      let (token, l) := Consume InBlockComment true false l in
      (kComment, token, l)
    else if last_token_may_end_value_ l then
      operator (set_may_end false l)
    else
      let (token, l) := Consume InRegex true false (set_within_brackets false l) in
      (kRegex, token, l)
  else operator l.

(** [NextToken]: the token is [None] when [*token] is left untouched. *)
Definition NextToken (l : t) : JsType * option Token * t :=
  let end_of_input := List.length (input_ l) <=? index_ l in
  if end_of_input || error_ l then (kEndOfInput, None, l) else
  let ch := nth (index_ l) (input_ l) Ch.nul in
  let l := set_token_start ch l in
  let l := set_token_start_index (Z.of_nat (index_ l)) l in
  let some (r : JsType * Token * t) := let '(k, tk, l) := r in (k, Some tk, l) in
  if fst (IsSpace l ch 0) then
    let (token, l) := Consume IsSpace false true l in
    (kWhitespace, Some token, l)
  else if fst (IsLineSeparator l ch 0) then
    let (token, l) := Consume IsLineSeparator false true l in
    (kLineSeparator, Some token, l)
  else
  let (is_number, l) := IsNumber l ch 0 in
  if is_number then
    let l := set_seen_a_dot (Ascii.eqb ch Ch.dot) l in
    let (token, l) := Consume IsNumber false true l in
    let l := set_seen_a_dot false l in
    let (k, l) := NumberOrDot (span (input_ l) token) l in
    (k, Some token, l)
  else if Ascii.eqb ch Ch.slash then some (ConsumeSlash l)
  else if Ascii.eqb ch Ch.dquote || Ascii.eqb ch Ch.squote then
    let l := set_token_start ch l in
    let (token, l) := Consume InString true false l in
    (kStringLiteral, Some token, set_may_end true l)
  else
  let (is_ident, l) := IdentifierStart l ch in
  if is_ident then
    let (token, l) := Consume InIdentifier false true l in
    let (k, l) := IdentifierOrKeyword (span (input_ l) token) l in
    (k, Some token, l)
  else if list_eq_dec ascii_dec (firstn 4 (skipn (index_ l) (input_ l)))
                      (bytes "<!--") then
    let (token, l) := Consume InSingleLineComment false true l in
    (kComment, Some token, l)
  else
    let l := set_token_start ch l in
    let (token, l) := Consume InOperator false true l in
    (kOperator, Some token, l).

(** The caller's loop [while (NextToken(&token) != kEndOfInput)], collecting
    every (kind, span) pair; [None] when [fuel] calls were not enough. *)
Fixpoint lex_loop (fuel : nat) (l : t) : option (list (JsType * Token) * t) :=
  match fuel with
  | 0 => None
  | S fuel' =>
      match NextToken l with
      | (kEndOfInput, _, l') => Some ([], l')
      | (k, Some token, l') =>
          match lex_loop fuel' l' with
          | Some (toks, lf) => Some ((k, token) :: toks, lf)
          | None => None
          end
      | (_, None, _) => None
      end
  end.

(** The results of [n] successive calls of [NextToken]. *)
Fixpoint calls (n : nat) (l : t) : list (JsType * option Token) :=
  match n with
  | 0 => []
  | S n' => let '(k, token, l') := NextToken l in (k, token) :: calls n' l'
  end.

(** The object after [n] successive calls of [NextToken]. *)
Fixpoint advance (n : nat) (l : t) : t :=
  match n with
  | 0 => l
  | S n' => advance n' (snd (NextToken l))
  end.

(** [Lex(input)] on an existing object, then the caller's loop. *)
Definition tokenize (l0 : t) (input : list ascii) :=
  lex_loop (S (List.length input)) (Lex l0 input).

(** The object right after [NextToken] has recorded where the token
    starts (the two assignments that precede the dispatch). *)
Definition enter (l : t) : t :=
  set_token_start_index (Z.of_nat (index_ l))
    (set_token_start (nth (index_ l) (input_ l) Ch.nul) l).

(** What holds of the object between two calls: the dot flag is down, and
    an escape can only be pending when the buffer is used up. *)
Definition between_tokens (l : t) : Prop :=
  seen_a_dot_ l = false /\
  (backslash_mode_ l = true -> List.length (input_ l) <= index_ l).

(** The states a lexer object passes through between calls. *)
Inductive reachable : t -> Prop :=
| reach_Lex : forall l0 input, reachable (Lex l0 input)
| reach_NextToken : forall l k token l',
    reachable l -> NextToken l = (k, token, l') -> reachable l'.

End WithKeywords.

(** *** Notions used to state the properties of the scanning loop *)

(** No predicate moves the cursor or rebinds the buffer. *)
Definition frame (p : LexicalPredicate) : Prop :=
  forall l ch i,
    input_ (snd (p l ch i)) = input_ l /\ index_ (snd (p l ch i)) = index_ l.

(** The predicates that go through [ProcessBackslash] answer [false] only
    outside an escape; the others never touch [backslash_mode_]. *)
Definition leaves_escape (p : LexicalPredicate) : Prop :=
  forall l ch i l', p l ch i = (false, l') -> backslash_mode_ l' = false.

(** The shape of one token: where it starts, that it is not empty, and
    where the cursor is afterwards. *)
Definition emits (l : t) (tk : Token) (l' : t) : Prop :=
  input_ l' = input_ l /\
  tok_start tk = index_ l /\
  1 <= tok_size tk /\
  index_ l' = index_ l + tok_size tk /\
  index_ l' <= List.length (input_ l).

(** A small keyword table for running the lexer on sample inputs. *)
Definition sample_Lookup (name : list ascii) : option nat * Flag :=
  if list_eq_dec ascii_dec name (bytes "this") then (Some 0, kIsValue)
  else if list_eq_dec ascii_dec name (bytes "true") then (Some 1, kIsValue)
  else if list_eq_dec ascii_dec name (bytes "return") then (Some 2, kNone)
  else if list_eq_dec ascii_dec name (bytes "var") then (Some 3, kNone)
  else (None, kNone).

Definition fresh : t := Lex (mk [] 0 false false Ch.nul Ch.nul false false 0%Z false) [].


(** Kinds and texts of all tokens of [s], for reading test outputs. *)
Definition show (s : string) : option (list (JsType * string) * bool) :=
  match tokenize sample_Lookup fresh (bytes s) with
  | Some (toks, lf) =>
      Some (map (fun kt => (fst kt, string_of_list_ascii (span (bytes s) (snd kt)))) toks,
            error_ lf)
  | None => None
  end.

End JsLexer.

(** ** The resource tag scanner *)

Module semantic_type.
Inductive Category :=
| kScript | kImage | kStylesheet | kOtherResource | kHyperlink | kPrefetch
| kUndefined.

Definition Category_eqb (a b : Category) : bool :=
  match a, b with
  | kScript, kScript | kImage, kImage | kStylesheet, kStylesheet
  | kOtherResource, kOtherResource | kHyperlink, kHyperlink
  | kPrefetch, kPrefetch | kUndefined, kUndefined => true
  | _, _ => false
  end.
End semantic_type.

Module HtmlName.
(** The members of [HtmlName::Keyword] that [ScanElement] names; every
    other tag or attribute name is [kNotAKeyword]. *)
Inductive Keyword :=
| kA | kAction | kArea | kAudio | kBackground | kBlockquote | kBody
| kButton | kCite | kCommand | kDel | kEmbed | kForm | kFormaction | kFrame
| kHref | kHtml | kIcon | kIframe | kImg | kInput | kIns | kLink
| kManifest | kQ | kRel | kScript | kSource | kSrc | kTable | kTbody | kTd
| kTfoot | kTh | kThead | kTrack | kType | kVideo | kNotAKeyword.

Definition Keyword_eqb (a b : Keyword) : bool :=
  match a, b with
  | kA, kA | kAction, kAction | kArea, kArea | kAudio, kAudio
  | kBackground, kBackground | kBlockquote, kBlockquote | kBody, kBody
  | kButton, kButton | kCite, kCite | kCommand, kCommand | kDel, kDel
  | kEmbed, kEmbed | kForm, kForm | kFormaction, kFormaction
  | kFrame, kFrame | kHref, kHref | kHtml, kHtml | kIcon, kIcon
  | kIframe, kIframe | kImg, kImg | kInput, kInput | kIns, kIns
  | kLink, kLink | kManifest, kManifest | kQ, kQ | kRel, kRel
  | kScript, kScript | kSource, kSource | kSrc, kSrc | kTable, kTable
  | kTbody, kTbody | kTd, kTd | kTfoot, kTfoot | kTh, kTh
  | kThead, kThead | kTrack, kTrack | kType, kType | kVideo, kVideo
  | kNotAKeyword, kNotAKeyword => true
  | _, _ => false
  end.
End HtmlName.

Module StringUtil.
(** Modelled from the spec: [StringCaseEqual] and
    [SplitStringPieceToVector] live in string_util, outside src/; the
    specification describes them as "case-insensitive token comparison"
    and a split "on spaces ... skipping empty tokens".  Case is folded
    for the ASCII letters only. *)
Definition lower (c : ascii) : ascii :=
  if Ch.between "A" "Z" c then ascii_of_nat (nat_of_ascii c + 32) else c.

(** Modelled from the spec: [StringCaseEqual] (string_util, outside
    src/), equality of two strings without regard to the case of ASCII
    letters. *)
Fixpoint StringCaseEqual (s1 s2 : string) : bool :=
  match s1, s2 with
  | EmptyString, EmptyString => true
  | String a s1', String b s2' =>
      Ascii.eqb (lower a) (lower b) && StringCaseEqual s1' s2'
  | _, _ => false
  end.

Definition piece_if_nonempty (s : string) : list string :=
  match s with EmptyString => [] | _ => [s] end.

(** [split sep cur sp]: [cur] is the piece being read. *)
Fixpoint split (sep : ascii) (cur sp : string) : list string :=
  match sp with
  | EmptyString => piece_if_nonempty cur
  | String c sp' =>
      if Ascii.eqb c sep then piece_if_nonempty cur ++ split sep EmptyString sp'
      else split sep (cur ++ String c EmptyString) sp'
  end.

(** Modelled from the spec: [SplitStringPieceToVector] (string_util,
    outside src/) called as [(sp, " ", &values, true)]: the pieces of [sp]
    between spaces, empty pieces skipped. *)
Definition SplitStringPieceToVector (sp : string) : list string :=
  split Ch.space EmptyString sp.

(** A [StringPiece] built from a possibly null [const char*]. *)
Definition StringPiece (p : option string) : string :=
  match p with Some s => s | None => EmptyString end.
End StringUtil.

Module Attribute.
(** Modelled from the spec: [HtmlElement::Attribute] is declared in
    html_element.h, outside src/.  "Attribute: {name, raw value, decoded
    value, decoding-error flag}"; the raw value is never read by the
    scanner and is left out; [decoded_value] is [None] for an attribute
    written without a value. *)
Record t := mk {
  keyword : HtmlName.Keyword;
  name_str : string;
  decoded_value : option string;
  decoding_error : bool
}.

(** Modelled from the spec: [Attribute::DecodedValueOrNull] (outside
    src/): no value when the attribute carries a decoding error. *)
Definition DecodedValueOrNull (a : t) : option string :=
  if decoding_error a then None else decoded_value a.
End Attribute.

Module HtmlElement.
(** Modelled from the spec: [HtmlElement] is declared in html_element.h,
    outside src/.  "Element: {tag keyword, ordered list of Attribute}",
    with the tag name as written next to its keyword. *)
Record t := mk {
  keyword : HtmlName.Keyword;
  name_str : string;
  attributes : list Attribute.t
}.

(** An [Attribute*] into the element's list: position and pointee. *)
Definition AttributePtr : Type := nat * Attribute.t.

Fixpoint find_keyword (k : HtmlName.Keyword) (attrs : list Attribute.t)
    (j : nat) : option AttributePtr :=
  match attrs with
  | [] => None
  | a :: attrs' =>
      if HtmlName.Keyword_eqb (Attribute.keyword a) k then Some (j, a)
      else find_keyword k attrs' (S j)
  end.

(** Modelled from the spec: [HtmlElement::FindAttribute] is defined
    outside src/; it returns the first attribute, in declaration order,
    whose keyword is [k], or NULL. *)
Definition FindAttribute (e : t) (k : HtmlName.Keyword)
  : option AttributePtr :=
  find_keyword k (attributes e) 0.

(** Modelled from the spec: [HtmlElement::AttributeValue] is defined
    outside src/; the decoded value of that attribute, or NULL. *)
Definition AttributeValue (e : t) (k : HtmlName.Keyword) : option string :=
  match FindAttribute e k with
  | Some (_, a) => Attribute.DecodedValueOrNull a
  | None => None
  end.
End HtmlElement.

Module resource_tag_scanner.
Import semantic_type StringUtil.
Local Open Scope string_scope.

Definition kIcon : string := "icon".
Definition kAppleTouchIcon : string := "apple-touch-icon".
Definition kAppleTouchIconPrecomposed : string := "apple-touch-icon-precomposed".
Definition kAppleTouchStartupImage : string := "apple-touch-startup-image".
Definition kRelPrefetch : string := "prefetch".
Definition kRelDnsPrefetch : string := "dns-prefetch".
Definition kAttrValImage : string := "image".

Definition IsAttributeInvalid (attr : option HtmlElement.AttributePtr) : bool :=
  match attr with
  | None => true
  | Some (_, a) => Attribute.decoding_error a
  end.

(** One entry of [RewriteOptions]' url-valued attribute table, as read by
    [UrlValuedAttribute(i, &element_i, &attribute_i, &category_i)]. *)
Record UrlValuedAttribute := mkRule {
  element_i : string;
  attribute_i : string;
  category_i : Category
}.

Definition is_icon_value (v : string) : bool :=
  StringCaseEqual v kIcon || StringCaseEqual v kAppleTouchIcon ||
  StringCaseEqual v kAppleTouchIconPrecomposed ||
  StringCaseEqual v kAppleTouchStartupImage.

Definition is_prefetch_value (v : string) : bool :=
  StringCaseEqual v kRelPrefetch || StringCaseEqual v kRelDnsPrefetch.

(** The loop over the [rel] values: an icon value breaks out with
    [kImage], a prefetch value sets [kPrefetch] and goes on. *)
Fixpoint scan_rel_values (values : list string) (category : Category)
  : Category :=
  match values with
  | [] => category
  | v :: values' =>
      if is_icon_value v then kImage
      else if is_prefetch_value v then scan_rel_values values' kPrefetch
      else scan_rel_values values' category
  end.

(** The inner loop of the fallback: the first attribute from position [j]
    on whose name matches and which decoded cleanly. *)
Fixpoint find_named (attribute_i : string) (attrs : list Attribute.t)
    (j : nat) : option HtmlElement.AttributePtr :=
  match attrs with
  | [] => None
  | attribute_j :: attrs' =>
      if StringCaseEqual (Attribute.name_str attribute_j) attribute_i
         && negb (Attribute.decoding_error attribute_j)
      then Some (j, attribute_j)
      else find_named attribute_i attrs' (S j)
  end.

(** The outer loop of the fallback; [Some] is the early [return]. *)
Fixpoint scan_rules (element : HtmlElement.t)
    (rules : list UrlValuedAttribute)
  : option (HtmlElement.AttributePtr * Category) :=
  match rules with
  | [] => None
  | rule :: rules' =>
      let next := scan_rules element rules' in
      if StringCaseEqual (HtmlElement.name_str element) (element_i rule) then
        match find_named (attribute_i rule) (HtmlElement.attributes element) 0
        with
        | Some attribute_j => Some (attribute_j, category_i rule)
        | None => next
        end
      else next
  end.

Section WithCssTagScanner.

(** [CssTagScanner::IsStylesheetOrAlternate], from css_tag_scanner.h. *)
Variable IsStylesheetOrAlternate : option string -> bool.

(** The [switch] on the element's keyword. *)
Definition builtin (element : HtmlElement.t)
  : option HtmlElement.AttributePtr * Category :=
  let find := HtmlElement.FindAttribute element in
  match HtmlElement.keyword element with
  | HtmlName.kLink =>
      let attr := find HtmlName.kHref in
      let category := kHyperlink in
      match find HtmlName.kRel with
      | Some (_, rel_attr) =>
          if IsStylesheetOrAlternate (Attribute.DecodedValueOrNull rel_attr)
          then (attr, kStylesheet)
          else
            let values :=
              SplitStringPieceToVector
                (StringPiece (Attribute.DecodedValueOrNull rel_attr)) in
            (attr, scan_rel_values values category)
      | None => (attr, category)
      end
  | HtmlName.kScript => (find HtmlName.kSrc, kScript)
  | HtmlName.kImg => (find HtmlName.kSrc, kImage)
  | HtmlName.kBody | HtmlName.kTd | HtmlName.kTh | HtmlName.kTable
  | HtmlName.kTbody | HtmlName.kTfoot | HtmlName.kThead =>
      (find HtmlName.kBackground, kImage)
  | HtmlName.kInput =>
      if StringCaseEqual
           (StringPiece (HtmlElement.AttributeValue element HtmlName.kType))
           kAttrValImage
      then (find HtmlName.kSrc, kImage)
      else (None, kUndefined)
  | HtmlName.kCommand => (find HtmlName.kIcon, kImage)
  | HtmlName.kA | HtmlName.kArea => (find HtmlName.kHref, kHyperlink)
  | HtmlName.kForm => (find HtmlName.kAction, kHyperlink)
  | HtmlName.kAudio | HtmlName.kVideo | HtmlName.kSource | HtmlName.kTrack
  | HtmlName.kEmbed | HtmlName.kFrame | HtmlName.kIframe =>
      (find HtmlName.kSrc, kOtherResource)
  | HtmlName.kHtml => (find HtmlName.kManifest, kOtherResource)
  | HtmlName.kBlockquote | HtmlName.kQ | HtmlName.kIns | HtmlName.kDel =>
      (find HtmlName.kCite, kHyperlink)
  | HtmlName.kButton => (find HtmlName.kFormaction, kHyperlink)
  | _ => (None, kUndefined)
  end.

(** [ScanElement(element, driver, &category)]; [driver] is [None] for a null
    driver and otherwise gives the url-valued attribute table of its
    options. *)
Definition ScanElement (element : HtmlElement.t)
    (driver : option (list UrlValuedAttribute))
  : option HtmlElement.AttributePtr * Category :=
  match HtmlElement.attributes element with
  | [] => (None, kUndefined)
  | _ :: _ =>
      let (attr, category) := builtin element in
      let found :=
        if IsAttributeInvalid attr then
          match driver with
          | Some rules => scan_rules element rules
          | None => None
          end
        else None in
      match found with
      | Some (attribute_j, category_i) => (Some attribute_j, category_i)
      | None =>
          if IsAttributeInvalid attr || Category_eqb category kUndefined
          then (None, kUndefined)
          else (attr, category)
      end
  end.

End WithCssTagScanner.

(** The rule "a [rel] value made of stylesheet and alternate tokens, with
    stylesheet among them", used to run the scanner on sample elements. *)
Definition sample_IsStylesheetOrAlternate (v : option string) : bool :=
  let values := SplitStringPieceToVector (StringPiece v) in
  existsb (fun x => StringCaseEqual x "stylesheet") values &&
  forallb (fun x => StringCaseEqual x "stylesheet"
                    || StringCaseEqual x "alternate") values.

(** Sample elements and rules. *)
Definition attr_href (v : string) : Attribute.t :=
  Attribute.mk HtmlName.kHref "href" (Some v) false.
Definition attr_rel (v : string) : Attribute.t :=
  Attribute.mk HtmlName.kRel "rel" (Some v) false.
Definition attr_data_src (v : string) : Attribute.t :=
  Attribute.mk HtmlName.kNotAKeyword "data-src" (Some v) false.
Definition link_prefetch_icon : HtmlElement.t :=
  HtmlElement.mk HtmlName.kLink "link"
    [attr_rel "prefetch  Icon dns-prefetch"; attr_href "a.png"].
Definition div_data_src : HtmlElement.t :=
  HtmlElement.mk HtmlName.kNotAKeyword "div" [attr_data_src "x.png"].
Definition img_and_data_src : HtmlElement.t :=
  HtmlElement.mk HtmlName.kImg "img"
    [Attribute.mk HtmlName.kSrc "src" (Some "a.png") false;
     attr_data_src "b.png"].

(** The fallback in the words of the specification: "the first such pair
    wins", rules in order and, under each rule, attributes in declaration
    order. *)
Definition rule_matches (element : HtmlElement.t)
    (pair : UrlValuedAttribute * HtmlElement.AttributePtr) : bool :=
  let (rule, attribute_j) := pair in
  StringCaseEqual (HtmlElement.name_str element) (element_i rule) &&
  StringCaseEqual (Attribute.name_str (snd attribute_j)) (attribute_i rule) &&
  negb (Attribute.decoding_error (snd attribute_j)).

Definition indexed (attrs : list Attribute.t) : list HtmlElement.AttributePtr :=
  combine (seq 0 (List.length attrs)) attrs.

Definition first_match (element : HtmlElement.t)
    (rules : list UrlValuedAttribute)
  : option (UrlValuedAttribute * HtmlElement.AttributePtr) :=
  find (rule_matches element)
       (list_prod rules (indexed (HtmlElement.attributes element))).

(** The [rel] refinement in the words of the specification: an icon value
    anywhere gives image, else a prefetch value anywhere gives prefetch. *)
Definition rel_category (values : list string) (category : Category)
  : Category :=
  if existsb is_icon_value values then kImage
  else if existsb is_prefetch_value values then kPrefetch
  else category.

End resource_tag_scanner.

(** ** The token rules in the words of the specification *)

Module JsLexerSpec.

Definition is_digit (c : ascii) : bool := Ch.between "0" "9" c.

(** Regex literal, the bytes after the opening [/]: "consumed up to an
    unescaped, unbracketed [/]; inside [[...]] a [/] does not terminate
    (bracket state is a single boolean); an embedded unescaped newline is an
    error that aborts the regex scan"; a backslash escapes the next byte.
    Returns how many of [rest] belong to the literal (terminator or newline
    included) and whether the literal is malformed. *)
Fixpoint regex_body (escaped in_brackets : bool) (rest : list ascii)
  : nat * bool :=
  match rest with
  | [] => (0, true)
  | c :: rest' =>
      let continue (e b : bool) :=
        let (n, bad) := regex_body e b rest' in (S n, bad) in
      if escaped then continue false in_brackets
      else if Ascii.eqb c Ch.backslash then continue true in_brackets
      else if Ascii.eqb c Ch.slash then
        if in_brackets then continue false true else (1, false)
      else if Ascii.eqb c Ch.lbracket then continue false true
      else if Ascii.eqb c Ch.rbracket then continue false false
      else if Ascii.eqb c Ch.lf then (1, true)
      else continue false in_brackets
  end.

(** String literal, the bytes after the opening quote: "the opening quote
    character is the terminator; a backslash escapes the next byte
    unconditionally".  Returns how many of [rest] belong to the literal and
    whether it is unterminated. *)
Fixpoint string_body (escaped : bool) (quote : ascii) (rest : list ascii)
  : nat * bool :=
  match rest with
  | [] => (0, true)
  | c :: rest' =>
      let continue (e : bool) :=
        let (n, bad) := string_body e quote rest' in (S n, bad) in
      if escaped then continue false
      else if Ascii.eqb c Ch.backslash then continue true
      else if Ascii.eqb c quote then (1, false)
      else continue false
  end.

(** Whether the two-byte sequence [*/] occurs in [prev :: rest]. *)
Fixpoint has_star_slash (prev : ascii) (rest : list ascii) : bool :=
  match rest with
  | [] => false
  | c :: rest' =>
      (Ascii.eqb prev Ch.star && Ascii.eqb c Ch.slash)
      || has_star_slash c rest'
  end.

(** Numeric run, the bytes after the first one: digits, and one dot as long
    as no dot has been seen; "once a dot is seen, no further dot is accepted
    into that token (the run simply ends there)". *)
Fixpoint number_run (seen_dot : bool) (rest : list ascii) : nat :=
  match rest with
  | [] => 0
  | c :: rest' =>
      if Ascii.eqb c Ch.dot then
        if seen_dot then 0 else S (number_run true rest')
      else if is_digit c then S (number_run seen_dot rest')
      else 0
  end.

(** The length of the longest prefix of [rest] whose bytes all satisfy
    [f]. *)
Fixpoint run_length (f : ascii -> bool) (rest : list ascii) : nat :=
  match rest with
  | [] => 0
  | c :: rest' => if f c then S (run_length f rest') else 0
  end.

(** The byte classes of the dispatch.  NUL belongs to both blank classes
    because [strchr] finds the terminator of its string. *)
Definition is_space (c : ascii) : bool := strchr [Ch.space; Ch.tab; Ch.ff] c.
Definition is_line_separator (c : ascii) : bool := strchr [Ch.lf; Ch.cr] c.
Definition ends_line (c : ascii) : bool :=
  Ascii.eqb c Ch.lf || Ascii.eqb c Ch.cr.
Definition in_line (c : ascii) : bool := negb (ends_line c).

(** A byte that can start an identifier without being a backslash. *)
Definition is_identifier_start (c : ascii) : bool :=
  Ch.between "a" "z" c || Ch.between "A" "Z" c ||
  Ascii.eqb c Ch.underscore || Ascii.eqb c Ch.dollar ||
  (127 <=? nat_of_ascii c).

(** Identifier, the bytes after the first one: identifier bytes and digits,
    and after a backslash any one byte. *)
Fixpoint identifier_run (escaped : bool) (rest : list ascii) : nat :=
  match rest with
  | [] => 0
  | c :: rest' =>
      if escaped then S (identifier_run false rest')
      else if Ascii.eqb c Ch.backslash then S (identifier_run true rest')
      else if is_identifier_start c || is_digit c
           then S (identifier_run false rest')
      else 0
  end.

(** Block comment, the bytes after the opening [/], [prev] being the byte
    before [rest]: how many of [rest] belong to the comment (the closing
    [/] included) and whether the comment is unterminated. *)
Fixpoint block_comment_body (prev : ascii) (rest : list ascii) : nat * bool :=
  match rest with
  | [] => (0, true)
  | c :: rest' =>
      if Ascii.eqb prev Ch.star && Ascii.eqb c Ch.slash then (1, false)
      else let (n, bad) := block_comment_body c rest' in (S n, bad)
  end.

(** A byte that reaches the last branch of the dispatch on its own
    account (the test for [<!--] apart). *)
Definition is_punctuation (c : ascii) : bool :=
  negb (is_space c) && negb (is_line_separator c) && negb (is_digit c) &&
  negb (Ascii.eqb c Ch.dot) && negb (Ascii.eqb c Ch.slash) &&
  negb (Ascii.eqb c Ch.dquote) && negb (Ascii.eqb c Ch.squote) &&
  negb (Ascii.eqb c Ch.backslash) && negb (is_identifier_start c).

(** Whether the operator that starts with [ch] takes [next] with it:
    [++], [--], [+=], [-=], [*=] (and [/=]). *)
Definition merges (ch next : ascii) : bool :=
  ((Ascii.eqb ch Ch.plus || Ascii.eqb ch Ch.minus) && Ascii.eqb next ch)
  || (Ascii.eqb next Ch.equal &&
      (Ascii.eqb ch Ch.plus || Ascii.eqb ch Ch.minus ||
       Ascii.eqb ch Ch.slash || Ascii.eqb ch Ch.star)).

End JsLexerSpec.

(** * Properties of the lexer *)

Module JsLexerFacts.
Import JsLexer.

(** ** What a predicate may touch *)

Ltac frame_tac :=
  intros l ch i; cbv beta zeta delta
    [IsSpace IsLineSeparator IsNumber InBlockComment InSingleLineComment
     InIdentifier InOperator InString InRegex IdentifierStart ProcessBackslash];
  repeat match goal with
         | |- context [if ?b then _ else _] => destruct b
         end; simpl; auto.

Lemma frame_IsSpace : frame IsSpace.
Proof. frame_tac. Qed.
Lemma frame_IsLineSeparator : frame IsLineSeparator.
Proof. frame_tac. Qed.
Lemma frame_IsNumber : frame IsNumber.
Proof. frame_tac. Qed.
Lemma frame_InBlockComment : frame InBlockComment.
Proof. frame_tac. Qed.
Lemma frame_InSingleLineComment : frame InSingleLineComment.
Proof. frame_tac. Qed.
Lemma frame_InIdentifier : frame InIdentifier.
Proof. frame_tac. Qed.
Lemma frame_InOperator : frame InOperator.
Proof. frame_tac. Qed.
Lemma frame_InString : frame InString.
Proof. frame_tac. Qed.
Lemma frame_InRegex : frame InRegex.
Proof. frame_tac. Qed.

Create HintDb frames.
#[local] Hint Resolve frame_IsSpace frame_IsLineSeparator frame_IsNumber
  frame_InBlockComment frame_InSingleLineComment frame_InIdentifier
  frame_InOperator frame_InString frame_InRegex : frames.

Lemma scan_frame (p : LexicalPredicate) :
  frame p ->
  forall rest i l n at_end l',
    scan p rest i l = (n, at_end, l') ->
    input_ l' = input_ l /\ index_ l' = index_ l /\
    n <= List.length rest /\
    (at_end = true -> n = List.length rest) /\
    (at_end = false -> n < List.length rest).
Proof.
  intros Hp rest; induction rest as [|c rest IH]; intros i l n at_end l' H.
  - simpl in H. inversion H; subst. simpl. repeat split; auto; discriminate.
  - simpl in H. destruct (Hp l c i) as [Hin Hix].
    destruct (p l c i) as [b l1]. simpl in Hin, Hix. destruct b.
    + destruct (scan p rest (S i) (set_prev_char c l1)) as [[n0 e0] l2] eqn:E.
      inversion H; subst. apply IH in E. simpl in E.
      destruct E as (E1 & E2 & E3 & E4 & E5).
      simpl. repeat split; try congruence; try lia.
      * intros He. rewrite (E4 He). reflexivity.
      * intros He. specialize (E5 He). lia.
    + inversion H; subst. simpl. repeat split; auto; try lia; discriminate.
Qed.

(** [Consume] emits the span that starts at the cursor, is at least one byte
    long, stays inside the buffer, and moves the cursor to its end. *)
Lemma Consume_span (p : LexicalPredicate) inc ok l token l' :
  frame p ->
  index_ l < List.length (input_ l) ->
  Consume p inc ok l = (token, l') ->
  input_ l' = input_ l /\
  tok_start token = index_ l /\
  1 <= tok_size token /\
  index_ l' = index_ l + tok_size token /\
  index_ l' <= List.length (input_ l).
Proof.
  intros Hp Hlt H. unfold Consume in H.
  assert (Hrest : List.length (skipn (S (index_ l)) (input_ l))
                  = List.length (input_ l) - S (index_ l))
    by apply length_skipn.
  change (input_ (set_prev_char (nth (index_ l) (input_ l) Ch.nul) l))
    with (input_ l) in H.
  destruct (scan p (skipn (S (index_ l)) (input_ l)) 1 _) as [[n e] l1] eqn:E.
  apply (scan_frame p Hp) in E.
  destruct E as (E1 & E2 & E3 & E4 & E5).
  rewrite Hrest in E3, E4, E5.
  change (input_ (set_prev_char _ l)) with (input_ l) in E1.
  change (index_ (set_prev_char _ l)) with (index_ l) in E2.
  inversion H; subst; clear H. simpl.
  destruct e; simpl.
  - specialize (E4 eq_refl). repeat split; auto; lia.
  - specialize (E5 eq_refl). destruct inc; repeat split; auto; lia.
Qed.

(** A data member, read through [f], that neither a predicate nor the
    bookkeeping of [Consume] writes keeps its value. *)
Lemma scan_keeps {A} (f : t -> A) (p : LexicalPredicate) :
  (forall l ch i, f (snd (p l ch i)) = f l) ->
  (forall c l, f (set_prev_char c l) = f l) ->
  forall rest i l n at_end l',
    scan p rest i l = (n, at_end, l') -> f l' = f l.
Proof.
  intros Hp Hs rest; induction rest as [|c rest IH]; intros i l n at_end l' H.
  - simpl in H. inversion H; subst. reflexivity.
  - simpl in H. specialize (Hp l c i). destruct (p l c i) as [b l1].
    simpl in Hp. destruct b.
    + destruct (scan p rest (S i) (set_prev_char c l1)) as [[n0 e0] l2] eqn:E.
      inversion H; subst. apply IH in E. rewrite E, Hs. exact Hp.
    + inversion H; subst. exact Hp.
Qed.

Lemma Consume_keeps {A} (f : t -> A) (p : LexicalPredicate) inc ok l tk l' :
  (forall l ch i, f (snd (p l ch i)) = f l) ->
  (forall c l, f (set_prev_char c l) = f l) ->
  (forall v l, f (set_index v l) = f l) ->
  (forall v l, f (set_error v l) = f l) ->
  Consume p inc ok l = (tk, l') -> f l' = f l.
Proof.
  intros Hp Hs Hi He H. unfold Consume in H.
  destruct (scan p _ 1 _) as [[n e] l1] eqn:E.
  apply (scan_keeps f p Hp Hs) in E. rewrite Hs in E.
  inversion H; subst. rewrite Hi. destruct e; [rewrite He|]; exact E.
Qed.

(** When the loop stops before the end of the buffer, the state it leaves
    is the one returned by the predicate call that answered [false]. *)
Lemma scan_stopped (p : LexicalPredicate) :
  forall rest i l n l',
    scan p rest i l = (n, false, l') ->
    exists l1 c i1, p l1 c i1 = (false, l') /\ nth_error rest n = Some c.
Proof.
  intros rest; induction rest as [|c rest IH]; intros i l n l' H.
  - simpl in H. inversion H.
  - simpl in H. destruct (p l c i) as [b l1] eqn:Ep. destruct b.
    + destruct (scan p rest (S i) (set_prev_char c l1)) as [[n0 e0] l2] eqn:E.
      inversion H; subst. apply IH in E. exact E.
    + inversion H; subst. exists l, c, i. split; [exact Ep|reflexivity].
Qed.

Ltac pred_cases H :=
  cbv beta zeta delta
    [IsSpace IsLineSeparator IsNumber InBlockComment InSingleLineComment
     InIdentifier InOperator InString InRegex IdentifierStart ProcessBackslash]
    in H;
  repeat match type of H with
         | context [if ?b then _ else _] => destruct b eqn:?
         end;
  inversion H; subst; simpl in *; auto; try congruence.

Lemma leaves_escape_InString : leaves_escape InString.
Proof. intros l ch i l' H. pred_cases H. Qed.
Lemma leaves_escape_InRegex : leaves_escape InRegex.
Proof. intros l ch i l' H. pred_cases H. Qed.
Lemma leaves_escape_InIdentifier : leaves_escape InIdentifier.
Proof. intros l ch i l' H. pred_cases H. Qed.

Lemma Consume_leaves_escape (p : LexicalPredicate) inc ok l tk l' :
  frame p -> leaves_escape p ->
  index_ l < List.length (input_ l) ->
  Consume p inc ok l = (tk, l') ->
  backslash_mode_ l' = true -> List.length (input_ l') <= index_ l'.
Proof.
  intros Hf Hp Hlt H Hb. unfold Consume in H.
  assert (Hrest : List.length (skipn (S (index_ l)) (input_ l))
                  = List.length (input_ l) - S (index_ l))
    by apply length_skipn.
  change (input_ (set_prev_char (nth (index_ l) (input_ l) Ch.nul) l))
    with (input_ l) in H.
  destruct (scan p (skipn (S (index_ l)) (input_ l)) 1 _) as [[n e] l1] eqn:E.
  pose proof (scan_frame p Hf _ _ _ _ _ _ E) as (E1 & E2 & E3 & E4 & E5).
  change (input_ (set_prev_char _ l)) with (input_ l) in E1.
  change (index_ (set_prev_char _ l)) with (index_ l) in E2.
  rewrite Hrest in E4.
  destruct e.
  - inversion H; subst. cbn [input_ index_ set_index set_error].
    rewrite E1, E2. specialize (E4 eq_refl). lia.
  - apply scan_stopped in E. destruct E as (l2 & c & i1 & Ep & _).
    apply Hp in Ep. inversion H; subst. simpl in Hb. congruence.
Qed.

Lemma IdentifierStart_frame l ch :
  input_ (snd (IdentifierStart l ch)) = input_ l /\
  index_ (snd (IdentifierStart l ch)) = index_ l.
Proof.
  unfold IdentifierStart, ProcessBackslash.
  repeat match goal with
         | |- context [if ?b then _ else _] => destruct b
         end; simpl; auto.
Qed.

Section WithKeywords.
Variable Lookup : list ascii -> option nat * Flag.

Lemma IdentifierOrKeyword_frame name l :
  input_ (snd (IdentifierOrKeyword Lookup name l)) = input_ l /\
  index_ (snd (IdentifierOrKeyword Lookup name l)) = index_ l /\
  fst (IdentifierOrKeyword Lookup name l) <> kEndOfInput.
Proof.
  unfold IdentifierOrKeyword. destruct (Lookup name) as [[n|] f]; simpl;
    repeat split; discriminate.
Qed.

Lemma NumberOrDot_frame text l :
  input_ (snd (NumberOrDot text l)) = input_ l /\
  index_ (snd (NumberOrDot text l)) = index_ l /\
  fst (NumberOrDot text l) <> kEndOfInput.
Proof.
  unfold NumberOrDot. destruct (list_eq_dec ascii_dec text [Ch.dot]); simpl;
    repeat split; discriminate.
Qed.

Lemma Consume_emits (p : LexicalPredicate) inc ok l0 l tk l' :
  frame p ->
  input_ l = input_ l0 -> index_ l = index_ l0 ->
  index_ l0 < List.length (input_ l0) ->
  Consume p inc ok l = (tk, l') ->
  emits l0 tk l'.
Proof.
  intros Hp Hin Hix Hlt H. apply Consume_span in H; auto.
  - unfold emits. rewrite <- Hin, <- Hix. exact H.
  - rewrite Hin, Hix. exact Hlt.
Qed.

Lemma emits_set_may_end v l tk l' : emits l tk l' -> emits l tk (set_may_end v l').
Proof. exact (fun H => H). Qed.

Lemma ConsumeSlash_emits l0 l k tk l' :
  input_ l = input_ l0 -> index_ l = index_ l0 ->
  index_ l0 < List.length (input_ l0) ->
  ConsumeSlash l = (k, tk, l') ->
  emits l0 tk l' /\ k <> kEndOfInput.
Proof.
  intros Hin Hix Hlt H. unfold ConsumeSlash in H.
  repeat match type of H with
         | (if ?b then _ else _) = _ => destruct b
         end;
  match type of H with
  | (let (_, _) := Consume ?p ?i ?o ?l in _) = _ =>
      destruct (Consume p i o l) as [tk0 l1] eqn:EC;
      apply (Consume_emits p i o l0) in EC; auto with frames;
      inversion H; subst; split; [exact EC | discriminate]
  end.
Qed.

Lemma NextToken_inv l k token l' :
  NextToken Lookup l = (k, token, l') ->
  (k = kEndOfInput /\ token = None /\ l' = l /\
   (List.length (input_ l) <= index_ l \/ error_ l = true))
  \/
  (index_ l < List.length (input_ l) /\ error_ l = false /\
   k <> kEndOfInput /\ exists tk, token = Some tk /\ emits l tk l').
Proof.
  intros H. unfold NextToken in H.
  destruct (List.length (input_ l) <=? index_ l) eqn:Eend.
  { left. inversion H; subst. apply Nat.leb_le in Eend. auto. }
  destruct (error_ l) eqn:Eerr.
  { left. inversion H; subst. auto. }
  right. apply Nat.leb_gt in Eend. simpl in H.
  split; [exact Eend|]. split; [reflexivity|].
  set (ch := nth (index_ l) (input_ l) Ch.nul) in *.
  set (l1 := set_token_start_index _ _) in *.
  assert (H1 : input_ l1 = input_ l /\ index_ l1 = index_ l) by (split; reflexivity).
  destruct H1 as [H1a H1b].
  destruct (strchr [Ch.space; Ch.tab; Ch.ff] ch).
  { destruct (Consume IsSpace false true l1) as [tk l2] eqn:EC.
    apply (Consume_emits _ _ _ l) in EC; auto with frames.
    inversion H; subst. split; [discriminate|]. eauto. }
  destruct (strchr [Ch.lf; Ch.cr] ch).
  { destruct (Consume IsLineSeparator false true l1) as [tk l2] eqn:EC.
    apply (Consume_emits _ _ _ l) in EC; auto with frames.
    inversion H; subst. split; [discriminate|]. eauto. }
  destruct (frame_IsNumber l1 ch 0) as [N1 N2].
  destruct (IsNumber l1 ch 0) as [isnum l2]. simpl in N1, N2.
  destruct isnum.
  { destruct (Consume IsNumber false true _) as [tk l3] eqn:EC.
    apply (Consume_emits _ _ _ l) in EC; auto with frames; try congruence.
    destruct (NumberOrDot_frame (span (input_ (set_seen_a_dot false l3)) tk)
                (set_seen_a_dot false l3)) as (F1 & F2 & F3).
    destruct (NumberOrDot _ _) as [k0 l4]. simpl in F1, F2, F3.
    inversion H; subst. split; [exact F3|]. exists tk. split; [reflexivity|].
    unfold emits in *. rewrite F1, F2. exact EC. }
  destruct (Ascii.eqb ch Ch.slash).
  { destruct (ConsumeSlash l2) as [[k0 tk] l3] eqn:EC.
    apply (ConsumeSlash_emits l) in EC; try congruence.
    inversion H; subst. destruct EC. split; eauto. }
  destruct (Ascii.eqb ch Ch.dquote || Ascii.eqb ch Ch.squote).
  { destruct (Consume InString true false _) as [tk l3] eqn:EC.
    apply (Consume_emits _ _ _ l) in EC; auto with frames; try (simpl; congruence).
    inversion H; subst. split; [discriminate|]. eauto. }
  destruct (IdentifierStart_frame l2 ch) as [I1 I2].
  destruct (IdentifierStart l2 ch) as [isid l3]. simpl in I1, I2.
  destruct isid.
  { destruct (Consume InIdentifier false true _) as [tk l4] eqn:EC.
    apply (Consume_emits _ _ _ l) in EC; auto with frames; try congruence.
    destruct (IdentifierOrKeyword_frame (span (input_ l4) tk) l4) as (F1 & F2 & F3).
    destruct (IdentifierOrKeyword _ _ _) as [k0 l5]. simpl in F1, F2, F3.
    inversion H; subst. split; [exact F3|]. exists tk. split; [reflexivity|].
    unfold emits in *. rewrite F1, F2. exact EC. }
  destruct (list_eq_dec _ _ _).
  { destruct (Consume InSingleLineComment false true _) as [tk l4] eqn:EC.
    apply (Consume_emits _ _ _ l) in EC; auto with frames; try congruence.
    inversion H; subst. split; [discriminate|]. eauto. }
  destruct (Consume InOperator false true _) as [tk l4] eqn:EC.
  apply (Consume_emits _ _ _ l) in EC; auto with frames; try (simpl; congruence).
  inversion H; subst. split; [discriminate|]. eauto.
Qed.


(** ** The dispatch on the first byte *)

Lemma NextToken_running l :
  error_ l = false -> index_ l < List.length (input_ l) ->
  (List.length (input_ l) <=? index_ l) || error_ l = false.
Proof.
  intros He Hlt. rewrite He, orb_false_r. apply Nat.leb_gt. exact Hlt.
Qed.

Lemma NextToken_slash l :
  error_ l = false -> index_ l < List.length (input_ l) ->
  nth (index_ l) (input_ l) Ch.nul = Ch.slash ->
  NextToken Lookup l
    = let '(k, tk, l') := ConsumeSlash (enter l) in (k, Some tk, l').
Proof.
  intros He Hlt Hch. unfold NextToken, enter.
  rewrite (NextToken_running l He Hlt). cbv zeta. rewrite Hch.
  reflexivity.
Qed.

(** ** The invariant between calls *)

Ltac keeps_tac :=
  intros; cbv beta zeta delta
    [IsSpace IsLineSeparator IsNumber InBlockComment InSingleLineComment
     InIdentifier InOperator InString InRegex IdentifierStart ProcessBackslash];
  repeat match goal with
         | |- context [if ?b then _ else _] => destruct b
         end; reflexivity.

Lemma IsNumber_false l ch i l' : IsNumber l ch i = (false, l') -> l' = l.
Proof.
  unfold IsNumber. destruct (Ascii.eqb ch Ch.dot); simpl.
  - destruct (seen_a_dot_ l); [congruence|]. rewrite orb_true_r. discriminate.
  - congruence.
Qed.

Lemma IsNumber_true l ch i l' :
  IsNumber l ch i = (true, l') ->
  backslash_mode_ l' = backslash_mode_ l /\ input_ l' = input_ l /\
  index_ l' = index_ l /\ error_ l' = error_ l.
Proof.
  unfold IsNumber. destruct (Ascii.eqb ch Ch.dot); simpl.
  - destruct (seen_a_dot_ l); [discriminate|]. intros H; inversion H; auto.
  - intros H; inversion H; auto.
Qed.

Lemma IdentifierStart_false l ch l' :
  IdentifierStart l ch = (false, l') -> l' = l.
Proof.
  unfold IdentifierStart, ProcessBackslash.
  destruct (backslash_mode_ l); [discriminate|].
  destruct (Ascii.eqb ch Ch.backslash); [discriminate|]. congruence.
Qed.

Lemma IdentifierStart_keeps_dot l ch :
  seen_a_dot_ (snd (IdentifierStart l ch)) = seen_a_dot_ l.
Proof. keeps_tac. Qed.

Lemma NumberOrDot_state text l :
  exists v, snd (NumberOrDot text l) = set_may_end v l.
Proof.
  unfold NumberOrDot. destruct (list_eq_dec ascii_dec text [Ch.dot]); eexists;
    reflexivity.
Qed.

Lemma IdentifierOrKeyword_state name l :
  exists v, snd (IdentifierOrKeyword Lookup name l) = set_may_end v l.
Proof.
  unfold IdentifierOrKeyword. destruct (Lookup name) as [[n|] f]; eexists;
    reflexivity.
Qed.

Ltac keeps_dot H :=
  eapply (Consume_keeps seen_a_dot_) in H; [| keeps_tac ..].
Ltac keeps_escape H :=
  eapply (Consume_keeps backslash_mode_) in H; [| keeps_tac ..].

Lemma ConsumeSlash_between_tokens l k tk l' :
  seen_a_dot_ l = false -> backslash_mode_ l = false ->
  index_ l < List.length (input_ l) ->
  ConsumeSlash l = (k, tk, l') -> between_tokens l'.
Proof.
  intros Hd Hb Hlt H. unfold ConsumeSlash in H.
  repeat match type of H with
         | (if ?b then _ else _) = _ => destruct b
         end;
  match type of H with
  | (let (_, _) := Consume ?p ?i ?o ?l in _) = _ =>
      destruct (Consume p i o l) as [tk0 l1] eqn:EC
  end; inversion H; subst; clear H; split;
  try (pose proof EC as ED; keeps_dot ED; simpl in *; congruence);
  try (pose proof EC as EB; keeps_escape EB; simpl in *; congruence).
  intros Hbs.
  exact (Consume_leaves_escape _ _ _ (set_within_brackets false l) _ _
           frame_InRegex leaves_escape_InRegex Hlt EC Hbs).
Qed.

Lemma between_tokens_Lex l0 input : between_tokens (Lex l0 input).
Proof. split; [reflexivity|]. simpl. discriminate. Qed.

Lemma between_tokens_NextToken l k token l' :
  between_tokens l -> NextToken Lookup l = (k, token, l') -> between_tokens l'.
Proof.
  intros Hwf H.
  destruct (NextToken_inv _ _ _ _ H) as [(_ & _ & -> & _) | (Hlt & Herr & _)];
    [exact Hwf|].
  destruct Hwf as [Hd Hb].
  assert (Hb' : backslash_mode_ l = false).
  { destruct (backslash_mode_ l); [|reflexivity]. specialize (Hb eq_refl). lia. }
  clear Hb. unfold NextToken in H.
  rewrite (NextToken_running l Herr Hlt) in H. cbv zeta in H.
  set (ch := nth (index_ l) (input_ l) Ch.nul) in *.
  change (set_token_start_index (Z.of_nat (index_ (set_token_start ch l)))
            (set_token_start ch l)) with (enter l) in H.
  assert (Hd1 : seen_a_dot_ (enter l) = false) by exact Hd.
  assert (Hb1 : backslash_mode_ (enter l) = false) by exact Hb'.
  assert (Hlt1 : index_ (enter l) < List.length (input_ (enter l))) by exact Hlt.
  remember (enter l) as l1 eqn:El1. clear El1.
  change (fst (IsSpace l1 ch 0)) with (strchr [Ch.space; Ch.tab; Ch.ff] ch) in H.
  change (fst (IsLineSeparator l1 ch 0)) with (strchr [Ch.lf; Ch.cr] ch) in H.
  destruct (strchr [Ch.space; Ch.tab; Ch.ff] ch).
  { destruct (Consume _ false true l1) as [tk l2] eqn:EC.
    inversion H; subst. split.
    - keeps_dot EC. congruence.
    - keeps_escape EC. congruence. }
  destruct (strchr [Ch.lf; Ch.cr] ch).
  { destruct (Consume _ false true l1) as [tk l2] eqn:EC.
    inversion H; subst. split.
    - keeps_dot EC. congruence.
    - keeps_escape EC. congruence. }
  destruct (IsNumber l1 ch 0) as [isnum l2] eqn:EN. destruct isnum.
  { apply IsNumber_true in EN. destruct EN as (Nb & _).
    destruct (Consume IsNumber false true _) as [tk l3] eqn:EC.
    destruct (NumberOrDot_state (span (input_ (set_seen_a_dot false l3)) tk)
                (set_seen_a_dot false l3)) as [v Hv].
    destruct (NumberOrDot _ _) as [k0 l4]. simpl in Hv.
    inversion H; subst. split; [reflexivity|].
    keeps_escape EC. simpl in *. congruence. }
  apply IsNumber_false in EN. subst l2.
  destruct (Ascii.eqb ch Ch.slash).
  { destruct (ConsumeSlash l1) as [[k0 tk] l3] eqn:EC.
    inversion H; subst. eapply ConsumeSlash_between_tokens; eauto. }
  destruct (Ascii.eqb ch Ch.dquote || Ascii.eqb ch Ch.squote).
  { destruct (Consume InString true false _) as [tk l3] eqn:EC.
    inversion H; subst. split.
    - keeps_dot EC. simpl in *. congruence.
    - intros Hbs.
      exact (Consume_leaves_escape _ _ _ (set_token_start ch l1) _ _
               frame_InString leaves_escape_InString Hlt1 EC Hbs). }
  pose proof (IdentifierStart_keeps_dot l1 ch) as Hkd.
  destruct (IdentifierStart_frame l1 ch) as [I1 I2].
  destruct (IdentifierStart l1 ch) as [isid l3] eqn:EI. simpl in Hkd, I1, I2.
  destruct isid.
  { destruct (Consume InIdentifier false true _) as [tk l4] eqn:EC.
    destruct (IdentifierOrKeyword_state (span (input_ l4) tk) l4) as [v Hv].
    destruct (IdentifierOrKeyword _ _ _) as [k0 l5]. simpl in Hv.
    inversion H; subst. split.
    - keeps_dot EC. simpl in *. congruence.
    - intros Hbs. simpl in Hbs.
      apply (Consume_leaves_escape _ _ _ _ _ _ frame_InIdentifier
               leaves_escape_InIdentifier) in EC; auto; congruence. }
  apply IdentifierStart_false in EI. subst l3.
  destruct (list_eq_dec _ _ _).
  { destruct (Consume _ false true l1) as [tk l2] eqn:EC.
    inversion H; subst. split.
    - keeps_dot EC. congruence.
    - keeps_escape EC. congruence. }
  destruct (Consume InOperator false true _) as [tk l4] eqn:EC.
  inversion H; subst. split.
  - keeps_dot EC. simpl in *. congruence.
  - keeps_escape EC. simpl in *. congruence.
Qed.

Lemma reachable_step l :
  reachable Lookup l -> reachable Lookup (snd (NextToken Lookup l)).
Proof.
  intros H. destruct (NextToken Lookup l) as [[k token] l'] eqn:E.
  exact (reach_NextToken Lookup l k token l' H E).
Qed.

Lemma reachable_between_tokens l : reachable Lookup l -> between_tokens l.
Proof.
  induction 1 as [l0 input | l k token l' _ IH H].
  - apply between_tokens_Lex.
  - exact (between_tokens_NextToken _ _ _ _ IH H).
Qed.

Lemma scan_nil (p : LexicalPredicate) i l : scan p [] i l = (0, true, l).
Proof. reflexivity. Qed.

Lemma ConsumeSlash_last l :
  S (index_ l) = List.length (input_ l) ->
  ConsumeSlash l
    = (kOperator, mkToken (index_ l) 1,
       set_may_end false
         (set_index (S (index_ l))
            (set_error (error_ l)
               (set_prev_char (nth (index_ l) (input_ l) Ch.nul) l)))).
Proof.
  intros Hlast. unfold ConsumeSlash.
  assert (Hguard : (index_ l <? List.length (input_ l) - 1) = false)
    by (apply Nat.ltb_ge; lia).
  rewrite Hguard. unfold Consume.
  change (input_ (set_prev_char (nth (index_ l) (input_ l) Ch.nul) l))
    with (input_ l).
  rewrite (skipn_all2 (input_ l)) by lia. rewrite scan_nil.
  cbn [index_ error_ set_prev_char negb]. rewrite orb_false_r, Nat.add_1_r.
  reflexivity.
Qed.

(** ** Slash: division or regex *)

Lemma skipn_cons_nth {A} (d : A) : forall n (l : list A),
  n < List.length l -> skipn n l = nth n l d :: skipn (S n) l.
Proof.
  induction n as [|n IH]; intros [|x l] H; simpl in *; try lia.
  - reflexivity.
  - apply IH. lia.
Qed.

(** The [InRegex] loop computes [regex_body]. *)
Lemma scan_InRegex : forall rest i l n at_end l',
  error_ l = false ->
  scan InRegex rest i l = (n, at_end, l') ->
  JsLexerSpec.regex_body (backslash_mode_ l) (within_brackets_ l) rest
    = (if at_end then n else S n, if at_end then true else error_ l') /\
  (at_end = true -> error_ l' = false) /\
  last_token_may_end_value_ l' = last_token_may_end_value_ l.
Proof.
  induction rest as [|c rest IH]; intros i l n at_end l' He H.
  - simpl in H. inversion H; subst. simpl. auto.
  - simpl in H. unfold InRegex at 1, ProcessBackslash in H.
    cbn [JsLexerSpec.regex_body].
    destruct (backslash_mode_ l) eqn:Eb.
    { destruct (scan InRegex rest (S i) _) as [[n0 e0] l2] eqn:E.
      inversion H; subst. apply IH in E; [|exact He].
      cbn [backslash_mode_ within_brackets_ set_prev_char set_backslash_mode
           last_token_may_end_value_] in E.
      destruct E as (E1 & E2 & E3). rewrite E1.
      destruct at_end; auto. }
    destruct (Ascii.eqb c Ch.backslash).
    { destruct (scan InRegex rest (S i) _) as [[n0 e0] l2] eqn:E.
      inversion H; subst. apply IH in E; [|exact He].
      cbn [backslash_mode_ within_brackets_ set_prev_char set_backslash_mode
           last_token_may_end_value_] in E.
      destruct E as (E1 & E2 & E3). rewrite E1.
      destruct at_end; auto. }
    destruct (Ascii.eqb c Ch.slash).
    { destruct (within_brackets_ l) eqn:Ew; cbn [negb] in H.
      - destruct (scan InRegex rest (S i) _) as [[n0 e0] l2] eqn:E.
        inversion H; subst. apply IH in E; [|exact He].
        cbn [backslash_mode_ within_brackets_ set_prev_char
             last_token_may_end_value_] in E.
        rewrite Eb, Ew in E.
        destruct E as (E1 & E2 & E3). rewrite E1.
        destruct at_end; auto.
      - inversion H; subst. rewrite He. auto 6. }
    destruct (Ascii.eqb c Ch.lbracket).
    { destruct (scan InRegex rest (S i) _) as [[n0 e0] l2] eqn:E.
      inversion H; subst. apply IH in E; [|exact He].
      cbn [backslash_mode_ within_brackets_ set_prev_char set_within_brackets
           last_token_may_end_value_] in E.
      rewrite Eb in E.
      destruct E as (E1 & E2 & E3). rewrite E1.
      destruct at_end; auto. }
    destruct (Ascii.eqb c Ch.rbracket).
    { destruct (scan InRegex rest (S i) _) as [[n0 e0] l2] eqn:E.
      inversion H; subst. apply IH in E; [|exact He].
      cbn [backslash_mode_ within_brackets_ set_prev_char set_within_brackets
           last_token_may_end_value_] in E.
      rewrite Eb in E.
      destruct E as (E1 & E2 & E3). rewrite E1.
      destruct at_end; auto. }
    destruct (Ascii.eqb c Ch.lf).
    { inversion H; subst. cbn. repeat split; auto; discriminate. }
    destruct (scan InRegex rest (S i) _) as [[n0 e0] l2] eqn:E.
    inversion H; subst. apply IH in E; [|exact He].
    cbn [backslash_mode_ within_brackets_ set_prev_char
         last_token_may_end_value_] in E.
    rewrite Eb in E.
    destruct E as (E1 & E2 & E3). rewrite E1.
    destruct at_end; auto.
Qed.

(** After a merge [token_start_] is NUL and the operator loop stops at
    once. *)
Lemma scan_InOperator_merged rest i l :
  token_start_ l = Ch.nul ->
  exists at_end l',
    scan InOperator rest i l = (0, at_end, l') /\ error_ l' = error_ l /\
    index_ l' = index_ l /\ input_ l' = input_ l.
Proof.
  intros Hts. destruct rest as [|c rest]; simpl.
  - eauto 6.
  - unfold InOperator. rewrite Hts. cbn [Ascii.eqb Ch.nul Ch.plus Ch.minus
      Ch.slash Ch.star Bool.eqb orb andb].
    rewrite andb_false_r. eexists. eexists. split; [reflexivity|].
    repeat split; reflexivity.
Qed.

Lemma ConsumeSlash_division l :
  S (index_ l) < List.length (input_ l) ->
  let next := nth (S (index_ l)) (input_ l) Ch.nul in
  next <> Ch.slash -> next <> Ch.star ->
  last_token_may_end_value_ l = true ->
  token_start_ l = Ch.slash ->
  exists l',
    ConsumeSlash l
      = (kOperator,
         mkToken (index_ l) (if Ascii.eqb next Ch.equal then 2 else 1), l') /\
    last_token_may_end_value_ l' = false /\ error_ l' = error_ l.
Proof.
  intros Hlt next Hns Hnt Hflag Hts. unfold ConsumeSlash.
  assert (Hguard : (index_ l <? List.length (input_ l) - 1) = true)
    by (apply Nat.ltb_lt; lia).
  rewrite Hguard, Nat.add_1_r. fold next.
  apply Ascii.eqb_neq in Hns, Hnt. rewrite Hns, Hnt, Hflag.
  unfold Consume.
  cbn [input_ index_ set_may_end set_prev_char].
  rewrite (skipn_cons_nth Ch.nul) by lia. fold next.
  cbn [scan]. unfold InOperator at 1.
  cbn [token_start_ set_may_end set_prev_char]. rewrite Hts.
  cbn [Ascii.eqb Ch.nul Ch.plus Ch.minus Ch.slash Ch.star Bool.eqb orb andb].
  rewrite andb_true_r.
  destruct (Ascii.eqb next Ch.equal).
  - match goal with
    | |- context [scan InOperator ?r ?i ?st] =>
        destruct (scan_InOperator_merged r i st eq_refl)
          as (e & l2 & Hscan & He & Hi & Hin)
    end.
    rewrite Hscan. cbn in He.
    destruct e; (eexists; split; [reflexivity|]);
      cbn; rewrite ?orb_false_r; auto.
  - eexists. split; [reflexivity|]. cbn. auto.
Qed.

Lemma ConsumeSlash_regex l :
  S (index_ l) < List.length (input_ l) ->
  let next := nth (S (index_ l)) (input_ l) Ch.nul in
  next <> Ch.slash -> next <> Ch.star ->
  last_token_may_end_value_ l = false ->
  error_ l = false -> backslash_mode_ l = false ->
  let body :=
    JsLexerSpec.regex_body false false (skipn (S (index_ l)) (input_ l)) in
  exists l',
    ConsumeSlash l = (kRegex, mkToken (index_ l) (S (fst body)), l') /\
    error_ l' = snd body /\ last_token_may_end_value_ l' = false.
Proof.
  intros Hlt next Hns Hnt Hflag He Hb body. unfold ConsumeSlash.
  assert (Hguard : (index_ l <? List.length (input_ l) - 1) = true)
    by (apply Nat.ltb_lt; lia).
  rewrite Hguard, Nat.add_1_r. fold next.
  apply Ascii.eqb_neq in Hns, Hnt. rewrite Hns, Hnt, Hflag.
  unfold Consume.
  cbn [input_ index_ set_within_brackets set_prev_char].
  destruct (scan InRegex _ 1 _) as [[n at_end] l1] eqn:E.
  pose proof (scan_frame _ frame_InRegex _ _ _ _ _ _ E) as (_ & Hix & _).
  apply scan_InRegex in E; [|exact He].
  cbn [backslash_mode_ within_brackets_ last_token_may_end_value_
       set_within_brackets set_prev_char] in E.
  rewrite Hb, Hflag in E. fold body in E. destruct E as (E1 & E2 & E3).
  rewrite E1. cbn [fst snd].
  destruct at_end; (eexists; split; [reflexivity|]); cbn; auto.
  rewrite orb_true_r. auto.
Qed.

(** ** The flag after a closing bracket *)

(** After [)], []] or [}] the may-end-value flag says whether the byte
    that follows the bracket is a closing bracket (or NUL), not that the
    token just emitted is one. *)
Lemma NextToken_closing_bracket l :
  reachable Lookup l -> error_ l = false ->
  S (index_ l) < List.length (input_ l) ->
  let ch := nth (index_ l) (input_ l) Ch.nul in
  ch = ")"%char \/ ch = "]"%char \/ ch = "}"%char ->
  exists l',
    NextToken Lookup l = (kOperator, Some (mkToken (index_ l) 1), l') /\
    last_token_may_end_value_ l'
      = strchr [")"; "]"; "}"]%char (nth (S (index_ l)) (input_ l) Ch.nul) /\
    error_ l' = false /\ index_ l' = S (index_ l) /\ input_ l' = input_ l.
Proof.
  intros Hr He Hlt ch Hch.
  destruct (reachable_between_tokens l Hr) as [Hd Hb].
  assert (Hb' : backslash_mode_ l = false).
  { destruct (backslash_mode_ l); [|reflexivity]. specialize (Hb eq_refl). lia. }
  assert (Hlt' : index_ l < List.length (input_ l)) by lia.
  assert (Hskip : skipn (index_ l) (input_ l)
                  = ch :: skipn (S (index_ l)) (input_ l)).
  { rewrite (skipn_cons_nth Ch.nul) by lia. reflexivity. }
  assert (Hs2 : skipn (S (index_ l)) (input_ l)
                = nth (S (index_ l)) (input_ l) Ch.nul
                  :: skipn (S (S (index_ l))) (input_ l)).
  { rewrite (skipn_cons_nth Ch.nul (S _)) by lia. reflexivity. }
  unfold NextToken. rewrite (NextToken_running l He Hlt'). cbv zeta.
  fold ch.
  change (set_token_start_index (Z.of_nat (index_ (set_token_start ch l)))
            (set_token_start ch l)) with (enter l).
  assert (Hdis : forall l1, backslash_mode_ l1 = false ->
    IdentifierStart l1 ch = (false, l1) /\ IsNumber l1 ch 0 = (false, l1) /\
    fst (IsSpace l1 ch 0) = false /\ fst (IsLineSeparator l1 ch 0) = false /\
    Ascii.eqb ch Ch.slash = false /\
    Ascii.eqb ch Ch.dquote || Ascii.eqb ch Ch.squote = false /\
    Ascii.eqb ch Ch.plus = false /\ Ascii.eqb ch Ch.minus = false /\
    Ascii.eqb ch Ch.star = false /\ ch <> "<"%char).
  { intros l1 Hl1. unfold IdentifierStart, ProcessBackslash. rewrite Hl1.
    destruct Hch as [Hq | [Hq | Hq]]; rewrite Hq; repeat split;
      try reflexivity; discriminate. }
  destruct (Hdis (enter l) Hb')
    as (D1 & D2 & D3 & D4 & D5 & D6 & D7 & D8 & D9 & D10).
  rewrite D3, D4, D2, D5, D6, D1.
  change (input_ (enter l)) with (input_ l).
  change (index_ (enter l)) with (index_ l).
  destruct (list_eq_dec ascii_dec _ _) as [Heq | _].
  { rewrite Hskip in Heq. cbn in Heq. inversion Heq. contradiction. }
  unfold Consume.
  cbn [index_ input_ set_token_start set_prev_char enter
       set_token_start_index].
  rewrite Hs2. cbn [scan]. unfold InOperator at 1.
  cbn [token_start_ set_prev_char set_token_start].
  rewrite D5, D7, D8, D9. cbn [orb andb]. rewrite andb_false_r.
  eexists. split; [reflexivity|]. cbn. rewrite He.
  repeat split. lia.
Qed.

(** ** Numbers and the lone dot *)

Lemma digit_or_dot_above_space ch :
  JsLexerSpec.is_digit ch = true \/ ch = Ch.dot ->
  forall c, nat_of_ascii c < 46 -> Ascii.eqb ch c = false.
Proof.
  intros H c Hc. apply Ascii.eqb_neq. intros ->.
  destruct H as [H | ->].
  - unfold JsLexerSpec.is_digit, Ch.between, Ch.le in H.
    apply andb_prop in H. destruct H as [H _]. apply Nat.leb_le in H.
    change (nat_of_ascii "0") with 48 in H. lia.
  - change (nat_of_ascii Ch.dot) with 46 in Hc. lia.
Qed.

Lemma digit_is_not_dot ch :
  JsLexerSpec.is_digit ch = true -> Ascii.eqb ch Ch.dot = false.
Proof.
  intros H. apply Ascii.eqb_neq. intros ->. vm_compute in H. discriminate.
Qed.

(** The [IsNumber] loop computes [number_run]; it writes [seen_a_dot_]
    only. *)
Lemma scan_IsNumber : forall rest i l n at_end l',
  scan IsNumber rest i l = (n, at_end, l') ->
  n = JsLexerSpec.number_run (seen_a_dot_ l) rest /\
  l' = set_seen_a_dot (seen_a_dot_ l') (set_prev_char (prev_char_ l') l).
Proof.
  induction rest as [|c rest IH]; intros i l n at_end l' H.
  - simpl in H. inversion H; subst. destruct l'; split; reflexivity.
  - cbn [scan] in H. unfold IsNumber at 1 in H.
    cbn [JsLexerSpec.number_run]. fold (JsLexerSpec.is_digit c) in H.
    destruct (Ascii.eqb c Ch.dot).
    + destruct (seen_a_dot_ l) eqn:Es.
      * inversion H; subst. split; [reflexivity|destruct l'; reflexivity].
      * rewrite orb_true_r in H.
        destruct (scan IsNumber rest (S i) _) as [[n0 e0] l2] eqn:E.
        inversion H; subst. apply IH in E. destruct E as [E1 E2].
        split; [rewrite E1; reflexivity|]. rewrite E2 at 1.
        destruct l; reflexivity.
    + rewrite orb_false_r in H. destruct (JsLexerSpec.is_digit c).
      * destruct (scan IsNumber rest (S i) _) as [[n0 e0] l2] eqn:E.
        inversion H; subst. apply IH in E. destruct E as [E1 E2].
        split; [rewrite E1; reflexivity|]. rewrite E2 at 1.
        destruct l; reflexivity.
      * inversion H; subst. destruct l'; split; reflexivity.
Qed.

Lemma NextToken_number l :
  error_ l = false -> index_ l < List.length (input_ l) ->
  seen_a_dot_ l = false ->
  let ch := nth (index_ l) (input_ l) Ch.nul in
  JsLexerSpec.is_digit ch = true \/ ch = Ch.dot ->
  NextToken Lookup l
    = let (token, l1) :=
        Consume IsNumber false true
          (set_seen_a_dot (Ascii.eqb ch Ch.dot) (enter l)) in
      let (k, l2) :=
        NumberOrDot (span (input_ l1) token) (set_seen_a_dot false l1) in
      (k, Some token, l2).
Proof.
  intros He Hlt Hd ch Hch. unfold NextToken.
  rewrite (NextToken_running l He Hlt). cbv zeta. fold ch.
  change (set_token_start_index (Z.of_nat (index_ (set_token_start ch l)))
            (set_token_start ch l)) with (enter l).
  unfold IsSpace, IsLineSeparator, fst, strchr. cbn [existsb].
  rewrite !(digit_or_dot_above_space ch Hch) by (vm_compute; lia).
  cbn [orb]. unfold IsNumber at 1.
  change (seen_a_dot_ (enter l)) with (seen_a_dot_ l). rewrite Hd.
  fold (JsLexerSpec.is_digit ch).
  destruct Hch as [Hdig | Hdot].
  - rewrite (digit_is_not_dot ch Hdig), Hdig. cbn [orb].
    reflexivity.
  - rewrite Hdot. cbn [Ascii.eqb Ch.dot Bool.eqb andb orb].
    rewrite orb_true_r. reflexivity.
Qed.

(** ** Strings and block comments *)

(** The [InString] loop computes [string_body]. *)
Lemma scan_InString : forall rest i l n at_end l',
  scan InString rest i l = (n, at_end, l') ->
  JsLexerSpec.string_body (backslash_mode_ l) (token_start_ l) rest
    = (if at_end then n else S n, at_end) /\
  error_ l' = error_ l.
Proof.
  induction rest as [|c rest IH]; intros i l n at_end l' H.
  - simpl in H. inversion H; subst. simpl. auto.
  - cbn [scan] in H. unfold InString at 1, ProcessBackslash in H.
    cbn [JsLexerSpec.string_body].
    destruct (backslash_mode_ l) eqn:Eb.
    { destruct (scan InString rest (S i) _) as [[n0 e0] l2] eqn:E.
      inversion H; subst. apply IH in E.
      cbn [backslash_mode_ token_start_ error_ set_prev_char
           set_backslash_mode] in E.
      destruct E as (E1 & E2). rewrite E1. destruct at_end; auto. }
    destruct (Ascii.eqb c Ch.backslash).
    { destruct (scan InString rest (S i) _) as [[n0 e0] l2] eqn:E.
      inversion H; subst. apply IH in E.
      cbn [backslash_mode_ token_start_ error_ set_prev_char
           set_backslash_mode] in E.
      destruct E as (E1 & E2). rewrite E1. destruct at_end; auto. }
    rewrite (Ascii.eqb_sym c (token_start_ l)).
    destruct (Ascii.eqb (token_start_ l) c); cbn [negb] in H.
    { inversion H; subst. auto. }
    destruct (scan InString rest (S i) _) as [[n0 e0] l2] eqn:E.
    inversion H; subst. apply IH in E.
    cbn [backslash_mode_ token_start_ error_ set_prev_char] in E.
    rewrite Eb in E. destruct E as (E1 & E2). rewrite E1.
    destruct at_end; auto.
Qed.

(** A string literal: the token runs to the closing quote, and the error
    flag is raised exactly when there is none. *)
Lemma NextToken_string l :
  reachable Lookup l -> error_ l = false ->
  index_ l < List.length (input_ l) ->
  let ch := nth (index_ l) (input_ l) Ch.nul in
  ch = Ch.dquote \/ ch = Ch.squote ->
  let body :=
    JsLexerSpec.string_body false ch (skipn (S (index_ l)) (input_ l)) in
  exists l',
    NextToken Lookup l
      = (kStringLiteral, Some (mkToken (index_ l) (S (fst body))), l') /\
    error_ l' = snd body /\ last_token_may_end_value_ l' = true.
Proof.
  intros Hr He Hlt ch Hch body.
  destruct (reachable_between_tokens l Hr) as [_ Hb].
  assert (Hb' : backslash_mode_ l = false).
  { destruct (backslash_mode_ l); [|reflexivity]. specialize (Hb eq_refl). lia. }
  assert (Hdispatch : NextToken Lookup l
    = let (token, l1) :=
        Consume InString true false (set_token_start ch (enter l)) in
      (kStringLiteral, Some token, set_may_end true l1)).
  { unfold NextToken. rewrite (NextToken_running l He Hlt). cbv zeta.
    fold ch.
    change (set_token_start_index (Z.of_nat (index_ (set_token_start ch l)))
              (set_token_start ch l)) with (enter l).
    destruct Hch as [Hq | Hq]; rewrite Hq; reflexivity. }
  rewrite Hdispatch. unfold Consume.
  cbn [input_ index_ set_prev_char set_token_start enter
       set_token_start_index].
  destruct (scan InString _ 1 _) as [[n at_end] l1] eqn:E.
  pose proof (scan_frame _ frame_InString _ _ _ _ _ _ E) as (_ & Hix & _).
  apply scan_InString in E.
  cbn [backslash_mode_ token_start_ error_ set_prev_char set_token_start
       set_token_start_index enter] in E.
  rewrite Hb', He in E. fold body in E. destruct E as (E1 & E2).
  rewrite E1. cbn [fst snd].
  destruct at_end; (eexists; split; [reflexivity|]); cbn; rewrite E2; auto.
Qed.

(** The [InBlockComment] loop stops at the first [/] that follows a [*],
    the byte before the loop's first one included. *)
Lemma scan_InBlockComment : forall rest i l n at_end l',
  scan InBlockComment rest i l = (n, at_end, l') ->
  at_end = negb (JsLexerSpec.has_star_slash (prev_char_ l) rest) /\
  error_ l' = error_ l.
Proof.
  induction rest as [|c rest IH]; intros i l n at_end l' H.
  - simpl in H. inversion H; subst. auto.
  - cbn [scan] in H. unfold InBlockComment at 1 in H.
    cbn [JsLexerSpec.has_star_slash].
    destruct (Ascii.eqb (prev_char_ l) Ch.star && Ascii.eqb c Ch.slash);
      cbn [negb orb] in *.
    + inversion H; subst. auto.
    + destruct (scan InBlockComment rest (S i) _) as [[n0 e0] l2] eqn:E.
      inversion H; subst. apply IH in E. exact E.
Qed.

(** A block comment: the error flag is raised exactly when no [*/] follows,
    where the [*] of the opening [/*] itself can be the first half of that
    [*/]. *)
Lemma NextToken_block_comment l :
  error_ l = false -> S (index_ l) < List.length (input_ l) ->
  nth (index_ l) (input_ l) Ch.nul = Ch.slash ->
  nth (S (index_ l)) (input_ l) Ch.nul = Ch.star ->
  exists tk l',
    NextToken Lookup l = (kComment, Some tk, l') /\
    error_ l'
      = negb (JsLexerSpec.has_star_slash Ch.star
                (skipn (S (S (index_ l))) (input_ l))).
Proof.
  intros He Hlt Hch Hnext.
  rewrite NextToken_slash by (auto; lia). unfold ConsumeSlash.
  assert (Hguard : (index_ (enter l) <? List.length (input_ (enter l)) - 1)
                   = true)
    by (apply Nat.ltb_lt; cbn; lia).
  rewrite Hguard, Nat.add_1_r.
  change (nth (S (index_ (enter l))) (input_ (enter l)) Ch.nul)
    with (nth (S (index_ l)) (input_ l) Ch.nul).
  rewrite Hnext. cbn [Ascii.eqb Ch.star Ch.slash Bool.eqb andb].
  unfold Consume.
  cbn [input_ index_ set_prev_char enter set_token_start
       set_token_start_index].
  destruct (scan InBlockComment _ 1 _) as [[n at_end] l1] eqn:E.
  apply scan_InBlockComment in E.
  cbn [prev_char_ error_ set_prev_char enter set_token_start
       set_token_start_index] in E.
  rewrite He in E.
  rewrite (skipn_cons_nth Ch.nul) in E by lia. rewrite Hnext in E.
  cbn [JsLexerSpec.has_star_slash Ascii.eqb Ch.star Ch.slash Bool.eqb andb orb]
    in E.
  rewrite andb_false_r in E. cbn [orb] in E.
  destruct E as (E1 & E2). rewrite <- E1.
  destruct at_end; (eexists; eexists; split; [reflexivity|]); cbn;
    rewrite E2, ?orb_true_r; reflexivity.
Qed.

(** ** Where the error flag can come from *)



Lemma nth_error_skipn_at {A} : forall i n (l : list A),
  nth_error (skipn i l) n = nth_error l (i + n).
Proof.
  induction i as [|i IH]; intros n [|x l]; simpl; auto.
  destruct n; reflexivity.
Qed.


Ltac keeps_error :=
  intros; cbv beta zeta delta
    [IsSpace IsLineSeparator IsNumber InBlockComment InSingleLineComment
     InIdentifier InOperator InString IdentifierStart ProcessBackslash];
  repeat match goal with
         | |- context [if ?b then _ else _] => destruct b
         end; reflexivity.



Lemma IdentifierStart_keeps_error l ch :
  error_ (snd (IdentifierStart l ch)) = error_ l.
Proof. keeps_error. Qed.


(** ** The caller's loop terminates and its spans tile the input *)



End WithKeywords.



(** C9: [Lex] overwrites every data member, so the lexer it leaves behind,
    and with it the results of any number of subsequent [NextToken] calls
    and of the caller's whole loop, do not depend on what the object held
    before. *)
Theorem C9_Lex_resets_all_state :
  forall Lookup l1 l2 input,
    Lex l1 input
      = mk input 0 false false Ch.nul Ch.nul false false (-1)%Z false /\
    Lex l1 input = Lex l2 input /\
    (forall n, calls Lookup n (Lex l1 input) = calls Lookup n (Lex l2 input)) /\
    tokenize Lookup l1 input = tokenize Lookup l2 input.
Proof.
  intros Lookup l1 l2 input.
  assert (H : forall l, Lex l input
      = mk input 0 false false Ch.nul Ch.nul false false (-1)%Z false)
    by (intros []; reflexivity).
  split; [apply H|]. split; [rewrite (H l1), (H l2); reflexivity|].
  split; [intros n|unfold tokenize]; rewrite (H l1), (H l2); reflexivity.
Qed.

(** A well-formed regex body ends with the [/] that closes it. *)
Lemma regex_body_ends_with_slash : forall rest escaped in_brackets n,
  JsLexerSpec.regex_body escaped in_brackets rest = (n, false) ->
  exists m, n = S m /\ nth_error rest m = Some Ch.slash.
Proof.
  induction rest as [|c rest IH]; intros escaped in_brackets n H;
    cbn [JsLexerSpec.regex_body] in H; [discriminate|].
  assert (Hcont : forall e b,
    (let (n0, bad) := JsLexerSpec.regex_body e b rest in (S n0, bad))
      = (n, false) ->
    exists m, n = S m /\ nth_error (c :: rest) m = Some Ch.slash).
  { intros e b Hc. destruct (JsLexerSpec.regex_body e b rest) as [n0 bad] eqn:E.
    inversion Hc; subst. apply IH in E. destruct E as (m & -> & Hm).
    exists (S m). split; [reflexivity|exact Hm]. }
  destruct escaped; [eauto|].
  destruct (Ascii.eqb c Ch.backslash); [eauto|].
  destruct (Ascii.eqb c Ch.slash) eqn:Es.
  { destruct in_brackets; [eauto|]. inversion H; subst.
    apply Ascii.eqb_eq in Es. subst c. exists 0. split; reflexivity. }
  destruct (Ascii.eqb c Ch.lbracket); [eauto|].
  destruct (Ascii.eqb c Ch.rbracket); [eauto|].
  destruct (Ascii.eqb c Ch.lf); [discriminate|eauto].
Qed.

(** C3, as stated, fails in three ways: after a value-ending token [/=] is
    one two-byte operator token; a [/] that is the last byte is an operator
    even when the previous token cannot end a value; and a regex scan is cut
    at an unescaped newline, before the next [/]. *)
Lemma C3_slash_not_always_one_byte_or_regex :
  (let l1 := snd (NextToken sample_Lookup (Lex fresh (bytes "a/=2"))) in
   last_token_may_end_value_ l1 = true /\
   nth (index_ l1) (input_ l1) Ch.nul = Ch.slash /\
   fst (NextToken sample_Lookup l1) = (kOperator, Some (mkToken 1 2))) /\
  (let l1 := snd (NextToken sample_Lookup (Lex fresh (bytes "=/"))) in
   last_token_may_end_value_ l1 = false /\
   nth (index_ l1) (input_ l1) Ch.nul = Ch.slash /\
   fst (NextToken sample_Lookup l1) = (kOperator, Some (mkToken 1 1))) /\
  (let l2 := NextToken sample_Lookup
               (Lex fresh (bytes "/a" ++ [Ch.lf] ++ bytes "b/")) in
   fst l2 = (kRegex, Some (mkToken 0 3)) /\ error_ (snd l2) = true).
Proof. vm_compute. repeat split. Qed.

(** C3 (amended): when [NextToken] meets a [/] that is followed by a byte
    other than [/] and [*]: if the may-end-value flag is up, the token is an
    operator, one byte long, or the two bytes of [/=] when the next byte is
    [=], and the flag is reset; otherwise the token is a regex literal that
    runs to the next unescaped [/] outside brackets, or to an unescaped
    newline or the end of the buffer, both of which raise the error flag;
    brackets are tracked by one boolean. *)
Theorem C3_slash_division_or_regex :
  forall Lookup l,
    reachable Lookup l -> error_ l = false ->
    S (index_ l) < List.length (input_ l) ->
    nth (index_ l) (input_ l) Ch.nul = Ch.slash ->
    let next := nth (S (index_ l)) (input_ l) Ch.nul in
    next <> Ch.slash -> next <> Ch.star ->
    let body :=
      JsLexerSpec.regex_body false false (skipn (S (index_ l)) (input_ l)) in
    exists l',
      NextToken Lookup l
        = (if last_token_may_end_value_ l then kOperator else kRegex,
           Some (mkToken (index_ l)
                   (if last_token_may_end_value_ l
                    then (if Ascii.eqb next Ch.equal then 2 else 1)
                    else S (fst body))),
           l') /\
      last_token_may_end_value_ l' = false /\
      error_ l' = (if last_token_may_end_value_ l then false else snd body) /\
      (last_token_may_end_value_ l = false -> snd body = false ->
       nth (index_ l + fst body) (input_ l) Ch.nul = Ch.slash).
Proof.
  intros Lookup l Hr He Hlt Hch next Hns Hnt body.
  destruct (reachable_between_tokens Lookup l Hr) as [_ Hb].
  assert (Hb' : backslash_mode_ l = false).
  { destruct (backslash_mode_ l); [|reflexivity]. specialize (Hb eq_refl). lia. }
  rewrite NextToken_slash by (auto; lia).
  destruct (last_token_may_end_value_ l) eqn:Hflag.
  - destruct (ConsumeSlash_division (enter l)) as (l' & HC & Hf & Herr); auto.
    exists l'. rewrite HC. split; [reflexivity|]. split; [exact Hf|].
    split; [rewrite Herr; exact He|]. intros Hcontra; discriminate.
  - destruct (ConsumeSlash_regex (enter l)) as (l' & HC & Herr & Hf); auto.
    exists l'. rewrite HC. split; [reflexivity|]. split; [exact Hf|].
    split; [exact Herr|].
    intros _ Hgood. fold body in Hgood.
    destruct body as [n bad] eqn:Ebody. cbn [fst snd] in *. subst bad.
    apply regex_body_ends_with_slash in Ebody.
    destruct Ebody as (m & -> & Hm).
    clear - Hm. revert Hm. generalize (index_ l), (input_ l).
    intros i inp; revert i. induction inp as [|c inp IH]; intros [|i] Hm.
    + destruct m; discriminate.
    + destruct m; discriminate.
    + cbn [skipn] in Hm. destruct inp as [|d inp]; [destruct m; discriminate|].
      rewrite Nat.add_0_l. cbn [nth].
      apply (nth_error_nth (d :: inp) m Ch.nul Hm).
    + cbn [skipn] in Hm. cbn [Nat.add nth]. apply IH. exact Hm.
Qed.

Lemma C3_slash_division_or_regex_witness :
  (exists l',
     NextToken sample_Lookup (Lex fresh (bytes "/[/]x/ y"))
       = (kRegex, Some (mkToken 0 6), l') /\
     last_token_may_end_value_ l' = false /\ error_ l' = false /\
     (false = false -> false = false ->
      nth 5 (bytes "/[/]x/ y") Ch.nul = Ch.slash)) /\
  (exists l',
     NextToken sample_Lookup
       (snd (NextToken sample_Lookup (Lex fresh (bytes "a/2"))))
       = (kOperator, Some (mkToken 1 1), l') /\
     last_token_may_end_value_ l' = false /\ error_ l' = false /\
     (true = false -> true = false ->
      nth 2 (bytes "a/2") Ch.nul = Ch.slash)).
Proof.
  split.
  - apply (C3_slash_division_or_regex sample_Lookup
             (Lex fresh (bytes "/[/]x/ y"))).
    + apply reach_Lex.
    + reflexivity.
    + vm_compute. lia.
    + reflexivity.
    + vm_compute. discriminate.
    + vm_compute. discriminate.
  - apply (C3_slash_division_or_regex sample_Lookup
             (snd (NextToken sample_Lookup (Lex fresh (bytes "a/2"))))).
    + apply reachable_step, reach_Lex.
    + reflexivity.
    + vm_compute. lia.
    + reflexivity.
    + vm_compute. discriminate.
    + vm_compute. discriminate.
Defined.

Lemma number_run_dots : forall rest seen_dot,
  count_occ ascii_dec
    (firstn (JsLexerSpec.number_run seen_dot rest) rest) Ch.dot
  <= (if seen_dot then 0 else 1).
Proof.
  induction rest as [|c rest IH]; intros seen_dot;
    cbn [JsLexerSpec.number_run].
  - destruct seen_dot; simpl; lia.
  - destruct (Ascii.eqb c Ch.dot) eqn:Ec.
    + destruct seen_dot; [simpl; lia|]. apply Ascii.eqb_eq in Ec. subst c.
      cbn [firstn]. rewrite count_occ_cons_eq by reflexivity.
      specialize (IH true). simpl in IH. lia.
    + apply Ascii.eqb_neq in Ec. destruct (JsLexerSpec.is_digit c).
      * cbn [firstn]. rewrite count_occ_cons_neq by exact Ec. apply IH.
      * destruct seen_dot; simpl; lia.
Qed.

Lemma number_run_stops : forall rest seen_dot c,
  nth_error rest (JsLexerSpec.number_run seen_dot rest) = Some c ->
  JsLexerSpec.is_digit c = false /\
  (c = Ch.dot ->
   seen_dot = true \/
   count_occ ascii_dec
     (firstn (JsLexerSpec.number_run seen_dot rest) rest) Ch.dot = 1).
Proof.
  induction rest as [|c0 rest IH]; intros seen_dot c;
    cbn [JsLexerSpec.number_run]; [discriminate|].
  destruct (Ascii.eqb c0 Ch.dot) eqn:Ec.
  - apply Ascii.eqb_eq in Ec. subst c0. destruct seen_dot.
    + cbn [nth_error]. intros H; inversion H; subst. split; auto.
    + cbn [nth_error firstn]. intros H. apply IH in H. destruct H as [H1 H2].
      split; [exact H1|]. intros Hc. right.
      rewrite count_occ_cons_eq by reflexivity.
      pose proof (number_run_dots rest true) as Hle. simpl in Hle. lia.
  - pose proof Ec as Ec'. apply Ascii.eqb_neq in Ec'.
    destruct (JsLexerSpec.is_digit c0) eqn:Ed.
    + cbn [nth_error firstn]. intros H. apply IH in H. destruct H as [H1 H2].
      split; [exact H1|]. intros Hc.
      rewrite count_occ_cons_neq by exact Ec'. auto.
    + cbn [nth_error]. intros H; inversion H; subst. split; [exact Ed|].
      intros ->. contradiction.
Qed.

Lemma span_cons input i n :
  i < List.length input ->
  span input (mkToken i (S n))
    = nth i input Ch.nul :: firstn n (skipn (S i) input).
Proof.
  intros H. unfold span. cbn [tok_size tok_start].
  rewrite (skipn_cons_nth Ch.nul) by exact H. reflexivity.
Qed.

(** C8: a token that starts with a digit or a dot takes the digits that
    follow and at most one dot; it stops just before a second dot.  A token
    that is exactly [.] is an operator, every other one a number.  On
    [1.2.3] the tokens are the numbers [1.2] and [.3]. *)
Theorem C8_number_or_lone_dot :
  (forall Lookup l,
     reachable Lookup l -> error_ l = false ->
     index_ l < List.length (input_ l) ->
     let ch := nth (index_ l) (input_ l) Ch.nul in
     JsLexerSpec.is_digit ch = true \/ ch = Ch.dot ->
     let n := JsLexerSpec.number_run (Ascii.eqb ch Ch.dot)
                (skipn (S (index_ l)) (input_ l)) in
     let token := mkToken (index_ l) (S n) in
     let text := span (input_ l) token in
     let lone_dot := if list_eq_dec ascii_dec text [Ch.dot] then true else false in
     exists l',
       NextToken Lookup l
         = (if lone_dot then kOperator else kNumber, Some token, l') /\
       last_token_may_end_value_ l' = negb lone_dot /\
       count_occ ascii_dec text Ch.dot <= 1 /\
       (forall c, nth_error (input_ l) (index_ l + S n) = Some c ->
          JsLexerSpec.is_digit c = false /\
          (c = Ch.dot -> count_occ ascii_dec text Ch.dot = 1))) /\
  (forall Lookup l0,
     exists lf,
       tokenize Lookup l0 (bytes "1.2.3")
         = Some ([(kNumber, mkToken 0 3); (kNumber, mkToken 3 2)], lf) /\
       HasError lf = false) /\
  (forall Lookup l0,
     exists lf,
       tokenize Lookup l0 (bytes ".")
         = Some ([(kOperator, mkToken 0 1)], lf)).
Proof.
  split; [|split].
  2: { intros Lookup l0. eexists. split; vm_compute; reflexivity. }
  2: { intros Lookup l0. eexists. vm_compute; reflexivity. }
  intros Lookup l Hr He Hlt ch Hch n token text lone_dot.
  destruct (reachable_between_tokens Lookup l Hr) as [Hd _].
  rewrite (NextToken_number Lookup l He Hlt Hd Hch). fold ch.
  unfold Consume.
  cbn [input_ index_ set_prev_char set_seen_a_dot enter set_token_start
       set_token_start_index].
  destruct (scan IsNumber _ 1 _) as [[n0 at_end] l1] eqn:E.
  pose proof (scan_frame _ frame_IsNumber _ _ _ _ _ _ E) as (Hin & Hix & _).
  cbn [input_ index_ set_prev_char set_seen_a_dot] in Hin, Hix.
  apply scan_IsNumber in E. destruct E as [E1 _].
  cbn [seen_a_dot_ set_prev_char set_seen_a_dot] in E1. fold n in E1. subst n0.
  assert (Htext : text = ch :: firstn n (skipn (S (index_ l)) (input_ l)))
    by (apply span_cons; exact Hlt).
  assert (Hcount : count_occ ascii_dec text Ch.dot <= 1).
  { rewrite Htext. pose proof (number_run_dots
      (skipn (S (index_ l)) (input_ l)) (Ascii.eqb ch Ch.dot)) as Hle.
    fold n in Hle. destruct (Ascii.eqb ch Ch.dot) eqn:Ec.
    - apply Ascii.eqb_eq in Ec. rewrite Ec.
      rewrite count_occ_cons_eq by reflexivity. lia.
    - apply Ascii.eqb_neq in Ec. rewrite count_occ_cons_neq by exact Ec. lia. }
  assert (Hsize : (if at_end then S n else S n) = S n) by (destruct at_end; reflexivity).
  rewrite Hsize.
  assert (Hspan : span (input_ (set_index
            (index_ (if at_end then set_error (error_ l1 || negb true) l1 else l1) + S n)
            (if at_end then set_error (error_ l1 || negb true) l1 else l1)))
            (mkToken (index_ l) (S n)) = text).
  { destruct at_end; cbn [input_ set_index set_error]; rewrite Hin; reflexivity. }
  rewrite Hspan. unfold NumberOrDot. subst lone_dot.
  destruct (list_eq_dec ascii_dec text [Ch.dot]) as [Heq|Hne].
  - eexists. split; [reflexivity|]. split; [reflexivity|].
    split; [exact Hcount|].
    intros c Hc. rewrite Nat.add_succ_r, <- Nat.add_succ_l in Hc.
    rewrite <- nth_error_skipn_at in Hc. apply number_run_stops in Hc.
    destruct Hc as [H1 H2]. split; [exact H1|]. intros _.
    rewrite Heq. reflexivity.
  - eexists. split; [reflexivity|]. split; [reflexivity|].
    split; [exact Hcount|].
    intros c Hc. rewrite Nat.add_succ_r, <- Nat.add_succ_l in Hc.
    rewrite <- nth_error_skipn_at in Hc. apply number_run_stops in Hc.
    destruct Hc as [H1 H2]. split; [exact H1|]. intros Hdot.
    specialize (H2 Hdot). fold n in H2. rewrite Htext.
    destruct (Ascii.eqb ch Ch.dot) eqn:Ec.
    + apply Ascii.eqb_eq in Ec. rewrite Htext in Hcount.
      revert Hcount. rewrite Ec.
      rewrite count_occ_cons_eq by reflexivity. lia.
    + apply Ascii.eqb_neq in Ec. rewrite count_occ_cons_neq by exact Ec.
      destruct H2 as [H2|H2]; [discriminate|exact H2].
Qed.

Lemma C8_number_or_lone_dot_witness :
  exists l',
    NextToken sample_Lookup (Lex fresh (bytes "1.2.3"))
      = (kNumber, Some (mkToken 0 3), l') /\
    last_token_may_end_value_ l' = true /\
    count_occ ascii_dec (bytes "1.2") Ch.dot <= 1 /\
    (forall c, nth_error (bytes "1.2.3") 3 = Some c ->
       JsLexerSpec.is_digit c = false /\
       (c = Ch.dot -> count_occ ascii_dec (bytes "1.2") Ch.dot = 1)).
Proof.
  apply (proj1 C8_number_or_lone_dot sample_Lookup
           (Lex fresh (bytes "1.2.3"))).
  - apply reach_Lex.
  - reflexivity.
  - vm_compute. lia.
  - left. reflexivity.
Defined.

(** C2 (defect in the code): [InOperator] sets the may-end-value flag from
    the byte it is looking at, which is the byte after the operator, not
    the operator.  On [(a)/2/1] the flag is therefore down after the [)],
    and the division sign that follows starts the regex literal [/2/]. *)
Theorem C2_slash_after_closing_paren_is_regex :
  let input := bytes "(a)/2/1" in
  fst (NextToken sample_Lookup (advance sample_Lookup 2 (Lex fresh input)))
    = (kOperator, Some (mkToken 2 1)) /\
  span input (mkToken 2 1) = bytes ")" /\
  last_token_may_end_value_ (advance sample_Lookup 3 (Lex fresh input))
    = false /\
  fst (NextToken sample_Lookup (advance sample_Lookup 3 (Lex fresh input)))
    = (kRegex, Some (mkToken 3 3)) /\
  span input (mkToken 3 3) = bytes "/2/" /\
  option_map fst (tokenize sample_Lookup fresh input)
    = Some [(kOperator, mkToken 0 1); (kIdentifier, mkToken 1 1);
            (kOperator, mkToken 2 1); (kRegex, mkToken 3 3);
            (kNumber, mkToken 6 1)].
Proof. vm_compute. repeat split. Qed.

(** C4 (defect in the code): the block-comment loop starts at the [*] of
    the opening [/*], so that star also counts as the first half of a
    closing [*/] and a [/] right after the opener closes the comment.
    [/*/] is a comment that is never closed, yet it comes out as a complete
    three-byte comment token, the error flag stays down and lexing goes
    on. *)
Theorem C4_block_comment_closed_by_its_opener :
  (exists lf,
     tokenize sample_Lookup fresh (bytes "/*/")
       = Some ([(kComment, mkToken 0 3)], lf) /\
     HasError lf = false) /\
  (exists lf,
     tokenize sample_Lookup fresh (bytes "/*/ x")
       = Some ([(kComment, mkToken 0 3); (kWhitespace, mkToken 3 1);
                (kIdentifier, mkToken 4 1)], lf) /\
     HasError lf = false).
Proof.
  split; eexists; split; vm_compute; reflexivity.
Qed.

(** C10: a [/] that is the last byte of the buffer comes out as a
    one-byte operator token and leaves the may-end-value flag down, whatever
    that flag was before the call: neither the comment test nor the
    division/regex choice is made. *)
Theorem C10_final_slash_is_operator :
  forall Lookup l,
    error_ l = false ->
    S (index_ l) = List.length (input_ l) ->
    nth (index_ l) (input_ l) Ch.nul = Ch.slash ->
    exists l',
      NextToken Lookup l = (kOperator, Some (mkToken (index_ l) 1), l') /\
      span (input_ l) (mkToken (index_ l) 1) = [Ch.slash] /\
      last_token_may_end_value_ l' = false /\
      error_ l' = false /\
      index_ l' = List.length (input_ l).
Proof.
  intros Lookup l He Hlast Hch.
  rewrite NextToken_slash by (auto; lia).
  rewrite ConsumeSlash_last by exact Hlast.
  eexists. split; [reflexivity|]. cbn. repeat split; auto.
  unfold span. cbn [tok_size tok_start].
  assert (Hlt : index_ l < List.length (input_ l)) by lia.
  clear - Hlt Hch. revert Hlt Hch.
  generalize (index_ l), (input_ l). intros n inp; revert n.
  induction inp as [|c inp IH]; intros [|n] Hlt Hch; simpl in *; try lia.
  - rewrite Hch. reflexivity.
  - apply IH; [lia|exact Hch].
Qed.

Lemma C10_final_slash_is_operator_witness :
  exists l',
    NextToken sample_Lookup (Lex fresh (bytes "/"))
      = (kOperator, Some (mkToken 0 1), l') /\
    span (bytes "/") (mkToken 0 1) = [Ch.slash] /\
    last_token_may_end_value_ l' = false /\
    error_ l' = false /\
    index_ l' = 1.
Proof.
  apply (C10_final_slash_is_operator sample_Lookup (Lex fresh (bytes "/")));
    reflexivity.
Defined.

(** ** Sample runs *)

Local Open Scope string_scope.

Example lex_line_comment :
  option_map fst (tokenize sample_Lookup fresh (bytes "//c" ++ [Ch.lf]))
  = Some [(kComment, mkToken 0 3); (kLineSeparator, mkToken 3 1)].
Proof. vm_compute. reflexivity. Qed.

Example lex_block_comment :
  show "/* a */" = Some ([(kComment, "/* a */")], false).
Proof. vm_compute. reflexivity. Qed.

Example lex_regex_after_assignment :
  show "x = /ab+c/;"
  = Some ([(kIdentifier, "x"); (kWhitespace, " "); (kOperator, "=");
           (kWhitespace, " "); (kRegex, "/ab+c/"); (kOperator, ";")], false).
Proof. vm_compute. reflexivity. Qed.

Example lex_division_after_identifier :
  show "a/2" = Some ([(kIdentifier, "a"); (kOperator, "/"); (kNumber, "2")],
                     false).
Proof. vm_compute. reflexivity. Qed.

Example lex_unterminated_string :
  show "'abc" = Some ([(kStringLiteral, "'abc")], true).
Proof. vm_compute. reflexivity. Qed.

Example lex_keyword_value_flag :
  show "this/2; return /x/"
  = Some ([(kKeyword 0, "this"); (kOperator, "/"); (kNumber, "2");
           (kOperator, ";"); (kWhitespace, " "); (kKeyword 2, "return");
           (kWhitespace, " "); (kRegex, "/x/")], false).
Proof. vm_compute. reflexivity. Qed.

End JsLexerFacts.

(** * Properties of the scanner *)

Module ScannerFacts.
Import semantic_type StringUtil resource_tag_scanner.
Local Open Scope string_scope.






(** ** The [rel] values of a link *)

Lemma scan_rel_values_spec : forall values category,
  scan_rel_values values category = rel_category values category.
Proof.
  unfold rel_category.
  induction values as [|v values IH]; intros category; simpl; [reflexivity|].
  destruct (is_icon_value v); [reflexivity|]. simpl.
  destruct (is_prefetch_value v); simpl; rewrite IH.
  - destruct (existsb is_icon_value values); [reflexivity|].
    destruct (existsb is_prefetch_value values); reflexivity.
  - reflexivity.
Qed.





(** ** The fallback over the custom rules *)

Lemma find_named_spec attribute_i : forall attrs j,
  find_named attribute_i attrs j
  = find (fun p : HtmlElement.AttributePtr =>
            StringCaseEqual (Attribute.name_str (snd p)) attribute_i
            && negb (Attribute.decoding_error (snd p)))
         (combine (seq j (List.length attrs)) attrs).
Proof.
  induction attrs as [|a attrs IH]; intros j; simpl; [reflexivity|].
  rewrite IH. reflexivity.
Qed.

Lemma find_app_or {A} (f : A -> bool) : forall l1 l2,
  find f (l1 ++ l2)%list
  = match find f l1 with Some x => Some x | None => find f l2 end.
Proof.
  induction l1 as [|x l1 IH]; intros l2; simpl; [reflexivity|].
  destruct (f x); [reflexivity|apply IH].
Qed.

Lemma find_map_pair {A B} (f : A * B -> bool) (a : A) : forall l,
  find f (map (fun y => (a, y)) l)
  = option_map (fun y => (a, y)) (find (fun y => f (a, y)) l).
Proof.
  induction l as [|y l IH]; simpl; [reflexivity|].
  destruct (f (a, y)); [reflexivity|exact IH].
Qed.

Lemma find_none_everywhere {A} (f : A -> bool) : forall l,
  (forall x, f x = false) -> find f l = None.
Proof.
  induction l as [|x l IH]; intros H; simpl; [reflexivity|].
  rewrite H. apply IH. exact H.
Qed.

Lemma find_ext {A} (f g : A -> bool) : forall l,
  (forall x, f x = g x) -> find f l = find g l.
Proof.
  induction l as [|x l IH]; intros H; simpl; [reflexivity|].
  rewrite H, (IH H). reflexivity.
Qed.

Lemma scan_rules_spec element : forall rules,
  scan_rules element rules
  = option_map (fun pair : UrlValuedAttribute * HtmlElement.AttributePtr =>
                  (snd pair, category_i (fst pair)))
               (first_match element rules).
Proof.
  unfold first_match, indexed.
  induction rules as [|rule rules IH]; [reflexivity|].
  cbn [scan_rules list_prod]. rewrite find_app_or, find_map_pair, IH.
  rewrite find_named_spec.
  destruct (StringCaseEqual (HtmlElement.name_str element) (element_i rule))
    eqn:En.
  - rewrite (find_ext (fun y => rule_matches element (rule, y))
               (fun p : HtmlElement.AttributePtr =>
                  StringCaseEqual (Attribute.name_str (snd p))
                    (attribute_i rule)
                  && negb (Attribute.decoding_error (snd p))))
      by (intros y; unfold rule_matches; rewrite En; reflexivity).
    match goal with
    | |- context [find ?f (combine ?a ?b)] => destruct (find f (combine a b))
    end; reflexivity.
  - rewrite (find_none_everywhere (fun y => rule_matches element (rule, y)))
      by (intros y; unfold rule_matches; rewrite En; reflexivity).
    reflexivity.
Qed.

(** C7: the rule list is consulted only when the built-in attribute is null
    or failed to decode.  When it is, the rules are taken in order and,
    under each rule whose element name matches without regard to case, the
    attributes in declaration order; the first pair whose attribute name
    matches without regard to case and decoded cleanly is returned with that
    rule's category, and nothing after it is looked at. *)
Theorem C7_fallback_first_matching_pair :
  forall IsStylesheetOrAlternate element,
    (forall driver,
       IsAttributeInvalid (fst (builtin IsStylesheetOrAlternate element))
         = false ->
       ScanElement IsStylesheetOrAlternate element driver
         = ScanElement IsStylesheetOrAlternate element None) /\
    (forall rules,
       HtmlElement.attributes element <> []%list ->
       IsAttributeInvalid (fst (builtin IsStylesheetOrAlternate element))
         = true ->
       ScanElement IsStylesheetOrAlternate element (Some rules)
         = match first_match element rules with
           | Some (rule, attribute_j) => (Some attribute_j, category_i rule)
           | None => (None, kUndefined)
           end) /\
    (forall rules rule attribute_j,
       first_match element rules = Some (rule, attribute_j) ->
       exists before after,
         list_prod rules (indexed (HtmlElement.attributes element))
           = (before ++ (rule, attribute_j) :: after)%list /\
         rule_matches element (rule, attribute_j) = true /\
         forallb (fun pair => negb (rule_matches element pair)) before = true).
Proof.
  intros ISA element. split; [|split].
  - intros driver Hvalid. unfold ScanElement.
    destruct (HtmlElement.attributes element); [reflexivity|].
    destruct (builtin ISA element) as [attr category]. simpl in Hvalid.
    rewrite Hvalid. reflexivity.
  - intros rules Hne Hinv. unfold ScanElement.
    destruct (HtmlElement.attributes element) as [|a0 attrs] eqn:Ea;
      [contradiction|].
    destruct (builtin ISA element) as [attr category]. simpl in Hinv.
    rewrite Hinv, scan_rules_spec. cbn [orb].
    destruct (first_match element rules) as [[rule p]|]; reflexivity.
  - intros rules rule attribute_j. unfold first_match.
    generalize (list_prod rules (indexed (HtmlElement.attributes element))).
    induction l as [|x l IH]; simpl; [discriminate|].
    destruct (rule_matches element x) eqn:Ex.
    + intros H; inversion H; subst. exists []%list, l.
      repeat split; auto.
    + intros H. destruct (IH H) as (before & after & H1 & H2 & H3).
      exists (x :: before)%list, after. rewrite H1. simpl. rewrite Ex.
      repeat split; auto.
Qed.

Lemma C7_fallback_first_matching_pair_witness :
  ScanElement sample_IsStylesheetOrAlternate img_and_data_src
    (Some [mkRule "IMG" "Data-Src" kImage])
  = ScanElement sample_IsStylesheetOrAlternate img_and_data_src None /\
  ScanElement sample_IsStylesheetOrAlternate div_data_src
    (Some [mkRule "span" "data-src" kScript;
           mkRule "DIV" "Data-Src" kImage;
           mkRule "div" "data-src" kHyperlink])
  = (Some (0, attr_data_src "x.png"), kImage).
Proof.
  split.
  - apply (proj1 (C7_fallback_first_matching_pair
                    sample_IsStylesheetOrAlternate img_and_data_src)).
    reflexivity.
  - apply (proj1 (proj2 (C7_fallback_first_matching_pair
                           sample_IsStylesheetOrAlternate div_data_src))).
    + discriminate.
    + reflexivity.
Defined.

End ScannerFacts.

(** * Further properties of the lexer *)

Module JsLexerMore.
Import JsLexer JsLexerFacts.

Ltac field_kept :=
  intros; cbv beta zeta delta
    [IsSpace IsLineSeparator IsNumber InBlockComment InSingleLineComment
     InIdentifier InOperator InString IdentifierStart ProcessBackslash];
  repeat match goal with
         | |- context [if ?b then _ else _] => destruct b
         end; reflexivity.

(** ** One call *)



(** ** After the end *)






(** ** Where errors come from *)

Lemma Consume_ok_field_kept (p : LexicalPredicate) inc l tk l' :
  (forall l ch i, error_ (snd (p l ch i)) = error_ l) ->
  Consume p inc true l = (tk, l') -> error_ l' = error_ l.
Proof.
  intros Hp H. unfold Consume in H.
  destruct (scan p _ 1 _) as [[n e] l1] eqn:E.
  apply (scan_keeps error_ p Hp (fun _ _ => eq_refl)) in E.
  cbn [error_ set_prev_char] in E.
  inversion H; subst. destruct e; cbn; rewrite ?orb_false_r; exact E.
Qed.

Lemma ConsumeSlash_error_kind l k tk l' :
  error_ l = false ->
  ConsumeSlash l = (k, tk, l') -> error_ l' = true ->
  k = kRegex \/
  (k = kComment /\ nth (S (index_ l)) (input_ l) Ch.nul = Ch.star).
Proof.
  intros He H He'. unfold ConsumeSlash in H. rewrite Nat.add_1_r in H.
  destruct (index_ l <? List.length (input_ l) - 1).
  - destruct (Ascii.eqb (nth (S (index_ l)) (input_ l) Ch.nul) Ch.slash).
    { destruct (Consume InSingleLineComment false true l) as [tk0 l1] eqn:EC.
      inversion H; subst.
      apply Consume_ok_field_kept in EC; [congruence|field_kept]. }
    destruct (Ascii.eqb (nth (S (index_ l)) (input_ l) Ch.nul) Ch.star)
      eqn:Estar.
    { destruct (Consume InBlockComment true false l) as [tk0 l1] eqn:EC.
      inversion H; subst. right. split; [reflexivity|].
      apply Ascii.eqb_eq. exact Estar. }
    destruct (last_token_may_end_value_ l).
    { destruct (Consume InOperator false true _) as [tk0 l1] eqn:EC.
      inversion H; subst. cbn [error_ set_may_end] in He'.
      apply Consume_ok_field_kept in EC; [|field_kept].
      cbn in EC. congruence. }
    destruct (Consume InRegex true false _) as [tk0 l1] eqn:EC.
    inversion H; subst. left. reflexivity.
  - destruct (Consume InOperator false true l) as [tk0 l1] eqn:EC.
    inversion H; subst. cbn [error_ set_may_end] in He'.
    apply Consume_ok_field_kept in EC; [congruence|field_kept].
Qed.

(** X3: only three kinds of token can raise the error flag: a string
    literal, a regex literal and a block comment (a comment that opens with
    [/*]).  Whitespace, line separators, numbers, identifiers, keywords,
    operators and the line comments introduced by [//] and [<!--] never
    do. *)
Theorem X3_error_only_from_string_regex_block_comment :
  forall Lookup l k tk l',
    NextToken Lookup l = (k, Some tk, l') ->
    error_ l' = true ->
    k = kStringLiteral \/ k = kRegex \/
    (k = kComment /\
     nth (index_ l) (input_ l) Ch.nul = Ch.slash /\
     nth (S (index_ l)) (input_ l) Ch.nul = Ch.star).
Proof.
  intros Lookup l k tk l' H He'.
  destruct (NextToken_inv Lookup _ _ _ _ H) as [(_ & Hn & _) | (Hlt & Herr & _)];
    [discriminate|].
  unfold NextToken in H.
  rewrite (NextToken_running l Herr Hlt) in H. cbv zeta in H.
  set (ch := nth (index_ l) (input_ l) Ch.nul) in *.
  change (set_token_start_index (Z.of_nat (index_ (set_token_start ch l)))
            (set_token_start ch l)) with (enter l) in H.
  assert (He1 : error_ (enter l) = false) by exact Herr.
  change (nth (S (index_ l)) (input_ l) Ch.nul)
    with (nth (S (index_ (enter l))) (input_ (enter l)) Ch.nul).
  remember (enter l) as l1 eqn:El1. clear El1.
  change (fst (IsSpace l1 ch 0)) with (strchr [Ch.space; Ch.tab; Ch.ff] ch) in H.
  change (fst (IsLineSeparator l1 ch 0)) with (strchr [Ch.lf; Ch.cr] ch) in H.
  destruct (strchr [Ch.space; Ch.tab; Ch.ff] ch).
  { destruct (Consume _ false true l1) as [tk0 l2] eqn:EC.
    inversion H; subst.
    apply Consume_ok_field_kept in EC; [congruence|field_kept]. }
  destruct (strchr [Ch.lf; Ch.cr] ch).
  { destruct (Consume _ false true l1) as [tk0 l2] eqn:EC.
    inversion H; subst.
    apply Consume_ok_field_kept in EC; [congruence|field_kept]. }
  destruct (IsNumber l1 ch 0) as [isnum l2] eqn:EN. destruct isnum.
  { apply IsNumber_true in EN. destruct EN as (_ & _ & _ & Ne).
    destruct (Consume IsNumber false true _) as [tk0 l3] eqn:EC.
    destruct (NumberOrDot_state (span (input_ (set_seen_a_dot false l3)) tk0)
                (set_seen_a_dot false l3)) as [v Hv].
    destruct (NumberOrDot _ _) as [k0 l4]. simpl in Hv.
    inversion H; subst. cbn [error_ set_may_end set_seen_a_dot] in He'.
    apply Consume_ok_field_kept in EC; [|field_kept].
    cbn in EC. congruence. }
  apply IsNumber_false in EN. subst l2.
  destruct (Ascii.eqb ch Ch.slash) eqn:Eslash.
  { destruct (ConsumeSlash l1) as [[k0 tk0] l3] eqn:EC.
    inversion H; subst.
    destruct (ConsumeSlash_error_kind _ _ _ _ He1 EC He') as [Hk | [Hk Hs]].
    - right. left. exact Hk.
    - right. right. split; [exact Hk|]. split; [|exact Hs].
      apply Ascii.eqb_eq. exact Eslash. }
  destruct (Ascii.eqb ch Ch.dquote || Ascii.eqb ch Ch.squote).
  { destruct (Consume InString true false _) as [tk0 l3] eqn:EC.
    inversion H; subst. left. reflexivity. }
  pose proof (IdentifierStart_keeps_error l1 ch) as Hke.
  destruct (IdentifierStart l1 ch) as [isid l3] eqn:EI. simpl in Hke.
  destruct isid.
  { destruct (Consume InIdentifier false true _) as [tk0 l4] eqn:EC.
    destruct (IdentifierOrKeyword_state Lookup (span (input_ l4) tk0) l4)
      as [v Hv].
    destruct (IdentifierOrKeyword _ _ _) as [k0 l5]. simpl in Hv.
    inversion H; subst. cbn [error_ set_may_end] in He'.
    apply Consume_ok_field_kept in EC; [congruence|field_kept]. }
  apply IdentifierStart_false in EI. subst l3.
  destruct (list_eq_dec _ _ _).
  { destruct (Consume _ false true l1) as [tk0 l2] eqn:EC.
    inversion H; subst.
    apply Consume_ok_field_kept in EC; [congruence|field_kept]. }
  destruct (Consume InOperator false true _) as [tk0 l4] eqn:EC.
  inversion H; subst.
  apply Consume_ok_field_kept in EC; [|field_kept]. cbn in EC. congruence.
Qed.

Lemma X3_error_only_from_string_regex_block_comment_witness :
  kComment = kStringLiteral \/ kComment = kRegex \/
  (kComment = kComment /\
   nth 0 (bytes "/* a") Ch.nul = Ch.slash /\
   nth 1 (bytes "/* a") Ch.nul = Ch.star).
Proof.
  apply (X3_error_only_from_string_regex_block_comment sample_Lookup
           (Lex fresh (bytes "/* a")) kComment (mkToken 0 4)
           (snd (NextToken sample_Lookup (Lex fresh (bytes "/* a"))))).
  - vm_compute. reflexivity.
  - vm_compute. reflexivity.
Defined.

(** ** What holds between calls *)

(** X4: in every state the lexer passes through, from a [Lex] on, the
    cursor is inside the buffer or just past its end, the seen-a-dot flag
    is down, and an escape is pending only if the buffer is used up: no
    token inherits a dot or a backslash from the one before it. *)
Theorem X4_reachable_invariant :
  forall Lookup l,
    reachable Lookup l ->
    index_ l <= List.length (input_ l) /\
    seen_a_dot_ l = false /\
    (backslash_mode_ l = true -> index_ l = List.length (input_ l)).
Proof.
  intros Lookup l Hr.
  assert (Hix : index_ l <= List.length (input_ l)).
  { induction Hr as [l0 input | l k token l' _ IH H].
    - cbn. lia.
    - destruct (NextToken_inv Lookup _ _ _ _ H)
        as [(_ & _ & -> & _) | (_ & _ & _ & tk & _ & Hin & _ & _ & _ & Hle)].
      + exact IH.
      + rewrite Hin. exact Hle. }
  destruct (reachable_between_tokens Lookup l Hr) as [Hd Hb].
  split; [exact Hix|]. split; [exact Hd|].
  intros Hbs. specialize (Hb Hbs). lia.
Qed.

Lemma X4_reachable_invariant_witness :
  index_ (advance sample_Lookup 1 (Lex fresh (bytes "a.b")))
    <= List.length (input_ (advance sample_Lookup 1 (Lex fresh (bytes "a.b")))) /\
  seen_a_dot_ (advance sample_Lookup 1 (Lex fresh (bytes "a.b"))) = false /\
  (backslash_mode_ (advance sample_Lookup 1 (Lex fresh (bytes "a.b"))) = true ->
   index_ (advance sample_Lookup 1 (Lex fresh (bytes "a.b")))
     = List.length (input_ (advance sample_Lookup 1 (Lex fresh (bytes "a.b"))))).
Proof.
  apply (X4_reachable_invariant sample_Lookup).
  apply (reachable_step sample_Lookup), reach_Lex.
Defined.

(** ** Tokens scanned by a predicate that reads only the byte *)

Lemma set_prev_char_same l : set_prev_char (prev_char_ l) l = l.
Proof. destruct l; reflexivity. Qed.

Lemma set_error_same l : set_error (error_ l) l = l.
Proof. destruct l; reflexivity. Qed.

Lemma scan_pure (f : ascii -> bool) (p : LexicalPredicate) :
  (forall l ch i, p l ch i = (f ch, l)) ->
  forall rest i l,
    exists pc,
      scan p rest i l
      = (JsLexerSpec.run_length f rest,
         Nat.eqb (JsLexerSpec.run_length f rest) (List.length rest),
         set_prev_char pc l).
Proof.
  intros Hp rest; induction rest as [|c rest IH]; intros i l.
  - exists (prev_char_ l). cbn. rewrite set_prev_char_same. reflexivity.
  - cbn [scan JsLexerSpec.run_length]. rewrite Hp. destruct (f c).
    + destruct (IH (S i) (set_prev_char c l)) as [pc Hpc]. rewrite Hpc.
      exists pc. reflexivity.
    + exists (prev_char_ l). rewrite set_prev_char_same. reflexivity.
Qed.

Lemma Consume_pure (f : ascii -> bool) (p : LexicalPredicate) l :
  (forall l ch i, p l ch i = (f ch, l)) ->
  let n := JsLexerSpec.run_length f (skipn (S (index_ l)) (input_ l)) in
  exists pc,
    Consume p false true l
    = (mkToken (index_ l) (S n),
       set_index (index_ l + S n) (set_prev_char pc l)).
Proof.
  intros Hp n. unfold Consume.
  cbn [input_ set_prev_char].
  destruct (scan_pure f p Hp (skipn (S (index_ l)) (input_ l)) 1
              (set_prev_char (nth (index_ l) (input_ l) Ch.nul) l))
    as [pc Hpc].
  rewrite Hpc. fold n. exists pc.
  destruct (Nat.eqb n _); cbn [negb]; rewrite ?orb_false_r, ?set_error_same;
    reflexivity.
Qed.

Lemma run_length_all (f : ascii -> bool) : forall rest,
  Forall (fun c => f c = true) (firstn (JsLexerSpec.run_length f rest) rest).
Proof.
  induction rest as [|c rest IH]; cbn; [constructor|].
  destruct (f c) eqn:E; cbn; constructor; assumption.
Qed.

Lemma run_length_stop (f : ascii -> bool) : forall rest c,
  nth_error rest (JsLexerSpec.run_length f rest) = Some c -> f c = false.
Proof.
  induction rest as [|c0 rest IH]; intros c H; cbn in H; [discriminate|].
  destruct (f c0) eqn:E; cbn in H.
  - exact (IH c H).
  - inversion H; subst. exact E.
Qed.

Lemma nth_error_after_token (input : list ascii) i n c :
  nth_error input (i + S n) = Some c ->
  nth_error (skipn (S i) input) n = Some c.
Proof.
  intros H. rewrite nth_error_skipn_at.
  replace (S i + n) with (i + S n) by lia. exact H.
Qed.

(** X5: a blank token is a maximal run.  On a byte of the whitespace class
    (space, tab, form feed and, through [strchr], NUL) [NextToken] emits a
    [kWhitespace] token made of that byte and all the bytes of the class
    that follow it; on a byte of the line-separator class (LF, CR, and NUL
    after the first byte) it emits a [kLineSeparator] token in the same
    way.  Neither changes the may-end-value flag or raises the error
    flag. *)
Theorem X5_blank_tokens :
  forall Lookup l,
    error_ l = false -> index_ l < List.length (input_ l) ->
    let ch := nth (index_ l) (input_ l) Ch.nul in
    let rest := skipn (S (index_ l)) (input_ l) in
    forall (k : JsType) (class : ascii -> bool),
      (k = kWhitespace /\ class = JsLexerSpec.is_space /\
       JsLexerSpec.is_space ch = true)
      \/
      (k = kLineSeparator /\ class = JsLexerSpec.is_line_separator /\
       JsLexerSpec.is_space ch = false /\
       JsLexerSpec.is_line_separator ch = true) ->
      let n := JsLexerSpec.run_length class rest in
      exists l',
        NextToken Lookup l = (k, Some (mkToken (index_ l) (S n)), l') /\
        last_token_may_end_value_ l' = last_token_may_end_value_ l /\
        error_ l' = false /\
        Forall (fun c => class c = true)
               (span (input_ l) (mkToken (index_ l) (S n))) /\
        (forall c, nth_error (input_ l) (index_ l + S n) = Some c ->
                   class c = false).
Proof.
  intros Lookup l He Hlt ch rest k class Hcase n.
  assert (Hspan : forall (P : ascii -> Prop), P ch ->
            Forall P (firstn n rest) ->
            Forall P (span (input_ l) (mkToken (index_ l) (S n)))).
  { intros P Hch Hrest. rewrite span_cons by exact Hlt.
    constructor; assumption. }
  assert (Hstop : forall c, nth_error (input_ l) (index_ l + S n) = Some c ->
                            class c = false).
  { intros c Hc. apply nth_error_after_token in Hc.
    exact (run_length_stop class rest c Hc). }
  unfold NextToken. rewrite (NextToken_running l He Hlt). cbv zeta.
  fold ch.
  change (set_token_start_index (Z.of_nat (index_ (set_token_start ch l)))
            (set_token_start ch l)) with (enter l).
  change (fst (IsSpace (enter l) ch 0)) with (JsLexerSpec.is_space ch).
  change (fst (IsLineSeparator (enter l) ch 0))
    with (JsLexerSpec.is_line_separator ch).
  destruct Hcase as [(-> & -> & Hsp) | (-> & -> & Hsp & Hls)].
  - rewrite Hsp.
    destruct (Consume_pure JsLexerSpec.is_space IsSpace (enter l)
                (fun _ _ _ => eq_refl)) as [pc Hpc].
    cbn [input_ index_ enter set_token_start set_token_start_index] in Hpc.
    fold rest in Hpc. fold n in Hpc. rewrite Hpc.
    eexists. split; [reflexivity|]. cbn. rewrite He.
    repeat split; auto. apply Hspan; [exact Hsp|apply run_length_all].
  - rewrite Hsp, Hls.
    destruct (Consume_pure JsLexerSpec.is_line_separator IsLineSeparator
                (enter l) (fun _ _ _ => eq_refl)) as [pc Hpc].
    cbn [input_ index_ enter set_token_start set_token_start_index] in Hpc.
    fold rest in Hpc. fold n in Hpc. rewrite Hpc.
    eexists. split; [reflexivity|]. cbn. rewrite He.
    repeat split; auto. apply Hspan; [exact Hls|apply run_length_all].
Qed.

Lemma X5_blank_tokens_witness :
  exists l',
    NextToken sample_Lookup (advance sample_Lookup 1 (Lex fresh (bytes "a  b")))
      = (kWhitespace, Some (mkToken 1 2), l') /\
    last_token_may_end_value_ l' = true /\
    error_ l' = false.
Proof.
  destruct (X5_blank_tokens sample_Lookup
              (advance sample_Lookup 1 (Lex fresh (bytes "a  b")))
              eq_refl ltac:(vm_compute; lia)
              kWhitespace JsLexerSpec.is_space
              (or_introl (conj eq_refl (conj eq_refl eq_refl))))
    as (l' & H1 & H2 & H3 & _).
  exists l'. split; [exact H1|]. split; [exact H2|exact H3].
Defined.

(** ** Line comments *)

Lemma InSingleLineComment_pure l ch i :
  InSingleLineComment l ch i = (JsLexerSpec.in_line ch, l).
Proof. reflexivity. Qed.

Lemma line_comment_token l :
  error_ l = false -> index_ l < List.length (input_ l) ->
  JsLexerSpec.in_line (nth (index_ l) (input_ l) Ch.nul) = true ->
  let n := JsLexerSpec.run_length JsLexerSpec.in_line
             (skipn (S (index_ l)) (input_ l)) in
  exists l',
    Consume InSingleLineComment false true l
      = (mkToken (index_ l) (S n), l') /\
    last_token_may_end_value_ l' = last_token_may_end_value_ l /\
    error_ l' = false /\
    Forall (fun c => JsLexerSpec.ends_line c = false)
           (span (input_ l) (mkToken (index_ l) (S n))) /\
    (forall c, nth_error (input_ l) (index_ l + S n) = Some c ->
               JsLexerSpec.ends_line c = true).
Proof.
  intros He Hlt Hch n.
  destruct (Consume_pure JsLexerSpec.in_line InSingleLineComment l
              InSingleLineComment_pure) as [pc Hpc].
  fold n in Hpc. rewrite Hpc. eexists. split; [reflexivity|].
  cbn [last_token_may_end_value_ error_ set_index set_prev_char].
  rewrite He. split; [reflexivity|]. split; [reflexivity|]. split.
  - rewrite span_cons by exact Hlt.
    assert (Himp : forall c, JsLexerSpec.in_line c = true ->
                             JsLexerSpec.ends_line c = false).
    { intros c Hc. unfold JsLexerSpec.in_line in Hc.
      apply negb_true_iff in Hc. exact Hc. }
    constructor; [apply Himp; exact Hch|].
    pose proof (run_length_all JsLexerSpec.in_line
                  (skipn (S (index_ l)) (input_ l))) as Hall.
    fold n in Hall. rewrite Forall_forall in *.
    intros c Hc. apply Himp. exact (Hall c Hc).
  - intros c Hc. apply nth_error_after_token in Hc.
    apply run_length_stop in Hc. unfold JsLexerSpec.in_line in Hc.
    apply negb_false_iff in Hc. exact Hc.
Qed.

(** X6: [//] opens a comment that runs up to, and not including, the next
    LF or CR, or to the end of the buffer; reaching the end is no error,
    and the may-end-value flag is left as it was. *)
Theorem X6_slash_slash_comment :
  forall Lookup l,
    error_ l = false -> S (index_ l) < List.length (input_ l) ->
    nth (index_ l) (input_ l) Ch.nul = Ch.slash ->
    nth (S (index_ l)) (input_ l) Ch.nul = Ch.slash ->
    let n := JsLexerSpec.run_length JsLexerSpec.in_line
               (skipn (S (index_ l)) (input_ l)) in
    exists l',
      NextToken Lookup l = (kComment, Some (mkToken (index_ l) (S n)), l') /\
      last_token_may_end_value_ l' = last_token_may_end_value_ l /\
      error_ l' = false /\
      Forall (fun c => JsLexerSpec.ends_line c = false)
             (span (input_ l) (mkToken (index_ l) (S n))) /\
      (forall c, nth_error (input_ l) (index_ l + S n) = Some c ->
                 JsLexerSpec.ends_line c = true).
Proof.
  intros Lookup l He Hlt Hch Hnext n.
  rewrite (NextToken_slash Lookup l He) by (auto; lia).
  unfold ConsumeSlash.
  assert (Hguard : (index_ (enter l) <? List.length (input_ (enter l)) - 1)
                   = true)
    by (apply Nat.ltb_lt; cbn; lia).
  rewrite Hguard, Nat.add_1_r.
  change (nth (S (index_ (enter l))) (input_ (enter l)) Ch.nul)
    with (nth (S (index_ l)) (input_ l) Ch.nul).
  rewrite Hnext. cbn [Ascii.eqb Ch.slash Bool.eqb andb].
  destruct (line_comment_token (enter l))
    as (l' & HC & Hf & Herr & Hall & Hstop);
    [exact He|cbn; lia|cbn; rewrite Hch; reflexivity|].
  cbn [input_ index_ enter set_token_start set_token_start_index] in HC.
  fold n in HC. rewrite HC. exists l'. auto.
Qed.

Lemma X6_slash_slash_comment_witness :
  exists l',
    NextToken sample_Lookup (Lex fresh (bytes "//c" ++ [Ch.lf] ++ bytes "x"))
      = (kComment, Some (mkToken 0 3), l') /\
    last_token_may_end_value_ l' = false /\ error_ l' = false.
Proof.
  destruct (X6_slash_slash_comment sample_Lookup
              (Lex fresh (bytes "//c" ++ [Ch.lf] ++ bytes "x"))
              eq_refl ltac:(vm_compute; lia) eq_refl eq_refl)
    as (l' & H1 & H2 & H3 & _).
  exists l'. split; [exact H1|]. split; [exact H2|exact H3].
Defined.

(** X7: the four bytes [<!--] open a comment of the same kind: it runs up
    to, and not including, the next LF or CR, or to the end of the buffer,
    never raises the error flag and leaves the may-end-value flag as it
    was. *)
Theorem X7_html_comment_marker :
  forall Lookup l,
    reachable Lookup l -> error_ l = false ->
    firstn 4 (skipn (index_ l) (input_ l)) = bytes "<!--" ->
    let n := JsLexerSpec.run_length JsLexerSpec.in_line
               (skipn (S (index_ l)) (input_ l)) in
    exists l',
      NextToken Lookup l = (kComment, Some (mkToken (index_ l) (S n)), l') /\
      3 <= n /\
      last_token_may_end_value_ l' = last_token_may_end_value_ l /\
      error_ l' = false /\
      Forall (fun c => JsLexerSpec.ends_line c = false)
             (span (input_ l) (mkToken (index_ l) (S n))) /\
      (forall c, nth_error (input_ l) (index_ l + S n) = Some c ->
                 JsLexerSpec.ends_line c = true).
Proof.
  intros Lookup l Hr He Hmark n.
  destruct (reachable_between_tokens Lookup l Hr) as [_ Hb].
  assert (Hlt : index_ l < List.length (input_ l)).
  { destruct (Nat.lt_ge_cases (index_ l) (List.length (input_ l)))
      as [H|H]; [exact H|].
    rewrite skipn_all2 in Hmark by exact H. rewrite firstn_nil in Hmark.
    discriminate. }
  assert (Hb' : backslash_mode_ l = false).
  { destruct (backslash_mode_ l); [|reflexivity]. specialize (Hb eq_refl). lia. }
  assert (Hskip : skipn (index_ l) (input_ l)
                  = nth (index_ l) (input_ l) Ch.nul
                    :: skipn (S (index_ l)) (input_ l))
    by (apply skipn_cons_nth; exact Hlt).
  assert (Hch : nth (index_ l) (input_ l) Ch.nul = "<"%char).
  { rewrite Hskip in Hmark. cbn in Hmark. inversion Hmark. reflexivity. }
  assert (Hn : 3 <= n).
  { rewrite Hskip in Hmark. cbn [firstn] in Hmark.
    unfold n. destruct (skipn (S (index_ l)) (input_ l)) as [|c1 [|c2 [|c3 r]]];
      cbn in Hmark; inversion Hmark; subst. cbn. lia. }
  unfold NextToken. rewrite (NextToken_running l He Hlt). cbv zeta.
  change (set_token_start_index
            (Z.of_nat (index_ (set_token_start (nth (index_ l) (input_ l) Ch.nul) l)))
            (set_token_start (nth (index_ l) (input_ l) Ch.nul) l))
    with (enter l).
  rewrite Hch.
  assert (Hid : IdentifierStart (enter l) "<"%char = (false, enter l)).
  { unfold IdentifierStart, ProcessBackslash.
    change (backslash_mode_ (enter l)) with (backslash_mode_ l).
    rewrite Hb'. reflexivity. }
  change (fst (IsSpace (enter l) "<"%char 0)) with false.
  change (fst (IsLineSeparator (enter l) "<"%char 0)) with false.
  change (IsNumber (enter l) "<"%char 0) with (false, enter l).
  change (Ascii.eqb "<"%char Ch.slash) with false.
  change (Ascii.eqb "<"%char Ch.dquote || Ascii.eqb "<"%char Ch.squote) with false.
  cbv iota. rewrite Hid.
  change (input_ (enter l)) with (input_ l).
  change (index_ (enter l)) with (index_ l).
  destruct (list_eq_dec ascii_dec _ _) as [_ | Hne]; [|contradiction].
  destruct (line_comment_token (enter l))
    as (l' & HC & Hf & Herr & Hall & Hstop);
    [exact He|exact Hlt|cbn; rewrite Hch; reflexivity|].
  cbn [input_ index_ enter set_token_start set_token_start_index] in HC.
  fold n in HC. rewrite HC. exists l'. auto 7.
Qed.

Lemma X7_html_comment_marker_witness :
  exists l',
    NextToken sample_Lookup (Lex fresh (bytes "<!-- x" ++ [Ch.cr] ++ bytes "y"))
      = (kComment, Some (mkToken 0 6), l') /\
    error_ l' = false.
Proof.
  destruct (X7_html_comment_marker sample_Lookup
              (Lex fresh (bytes "<!-- x" ++ [Ch.cr] ++ bytes "y"))
              (reach_Lex _ _ _) eq_refl eq_refl)
    as (l' & H1 & _ & _ & H3 & _).
  exists l'. split; [exact H1|exact H3].
Defined.

(** ** Identifiers and keywords *)

Lemma identifier_start_code ch :
  JsLexerSpec.is_identifier_start ch = true \/ ch = Ch.backslash ->
  nat_of_ascii ch = 36 \/ 65 <= nat_of_ascii ch.
Proof.
  intros [H | ->]; [|right; vm_compute; lia].
  unfold JsLexerSpec.is_identifier_start, Ch.between, Ch.le in H.
  repeat (apply orb_prop in H; destruct H as [H | H]).
  - apply andb_prop in H. destruct H as [H _]. apply Nat.leb_le in H.
    change (nat_of_ascii "a") with 97 in H. lia.
  - apply andb_prop in H. destruct H as [H _]. apply Nat.leb_le in H.
    change (nat_of_ascii "A") with 65 in H. lia.
  - apply Ascii.eqb_eq in H. subst ch. right. vm_compute. lia.
  - apply Ascii.eqb_eq in H. subst ch. left. reflexivity.
  - apply Nat.leb_le in H. lia.
Qed.

Lemma identifier_start_differs ch c :
  JsLexerSpec.is_identifier_start ch = true \/ ch = Ch.backslash ->
  nat_of_ascii c < 65 -> nat_of_ascii c <> 36 ->
  Ascii.eqb ch c = false.
Proof.
  intros H Hc Hd. apply Ascii.eqb_neq. intros ->.
  apply identifier_start_code in H. lia.
Qed.

Lemma identifier_start_not_digit ch :
  JsLexerSpec.is_identifier_start ch = true \/ ch = Ch.backslash ->
  Ch.between "0" "9" ch = false.
Proof.
  intros H. apply identifier_start_code in H.
  unfold Ch.between, Ch.le. change (nat_of_ascii "0") with 48.
  change (nat_of_ascii "9") with 57.
  destruct (Nat.leb_spec 48 (nat_of_ascii ch));
    destruct (Nat.leb_spec (nat_of_ascii ch) 57); try reflexivity; lia.
Qed.

(** The [InIdentifier] loop computes [identifier_run]. *)
Lemma scan_InIdentifier : forall rest i l n at_end l',
  scan InIdentifier rest i l = (n, at_end, l') ->
  n = JsLexerSpec.identifier_run (backslash_mode_ l) rest.
Proof.
  induction rest as [|c rest IH]; intros i l n at_end l' H.
  - simpl in H. inversion H; subst. reflexivity.
  - cbn [scan] in H.
    unfold InIdentifier at 1, IdentifierStart, ProcessBackslash in H.
    cbn [JsLexerSpec.identifier_run].
    fold (JsLexerSpec.is_identifier_start c) in H.
    fold (JsLexerSpec.is_digit c) in H.
    destruct (backslash_mode_ l) eqn:Eb.
    { destruct (scan InIdentifier rest (S i) _) as [[n0 e0] l2] eqn:E.
      inversion H; subst. apply IH in E. rewrite E. reflexivity. }
    destruct (Ascii.eqb c Ch.backslash).
    { destruct (scan InIdentifier rest (S i) _) as [[n0 e0] l2] eqn:E.
      inversion H; subst. apply IH in E. rewrite E. reflexivity. }
    destruct (JsLexerSpec.is_identifier_start c); cbn [orb].
    { destruct (scan InIdentifier rest (S i) _) as [[n0 e0] l2] eqn:E.
      inversion H; subst. apply IH in E. rewrite E.
      cbn [backslash_mode_ set_prev_char]. rewrite Eb. reflexivity. }
    destruct (JsLexerSpec.is_digit c).
    { destruct (scan InIdentifier rest (S i) _) as [[n0 e0] l2] eqn:E.
      inversion H; subst. apply IH in E. rewrite E.
      cbn [backslash_mode_ set_prev_char]. rewrite Eb. reflexivity. }
    inversion H; subst. reflexivity.
Qed.

Lemma Consume_InIdentifier l :
  exists l',
    Consume InIdentifier false true l
      = (mkToken (index_ l)
           (S (JsLexerSpec.identifier_run (backslash_mode_ l)
                 (skipn (S (index_ l)) (input_ l)))), l') /\
    input_ l' = input_ l /\ error_ l' = error_ l.
Proof.
  unfold Consume. cbn [input_ set_prev_char].
  destruct (scan InIdentifier _ 1 _) as [[n0 at_end] l3] eqn:E.
  pose proof (scan_frame _ frame_InIdentifier _ _ _ _ _ _ E)
    as (Hin3 & Hix3 & _).
  pose proof (scan_keeps error_ InIdentifier
                ltac:(field_kept) (fun _ _ => eq_refl) _ _ _ _ _ _ E) as He3.
  apply scan_InIdentifier in E.
  cbn [backslash_mode_ input_ index_ error_ set_prev_char] in E, Hin3, Hix3, He3.
  rewrite <- E.
  destruct at_end; (eexists; split; [reflexivity|]); cbn;
    rewrite ?orb_false_r; auto.
Qed.

(** X8: on a letter, [_], [$], a byte of 127 or more, or a backslash,
    [NextToken] takes that byte and the identifier bytes and digits that
    follow, a backslash carrying the byte after it whatever it is.  The
    text is looked up: a keyword is returned as such and raises the
    may-end-value flag exactly when its flag is [kIsValue]; any other text
    is [kIdentifier] and raises the flag.  The error flag is never
    raised. *)
Theorem X8_identifier_or_keyword :
  forall Lookup l,
    reachable Lookup l -> error_ l = false ->
    index_ l < List.length (input_ l) ->
    let ch := nth (index_ l) (input_ l) Ch.nul in
    JsLexerSpec.is_identifier_start ch = true \/ ch = Ch.backslash ->
    let n := JsLexerSpec.identifier_run (Ascii.eqb ch Ch.backslash)
               (skipn (S (index_ l)) (input_ l)) in
    let token := mkToken (index_ l) (S n) in
    let name := span (input_ l) token in
    exists l',
      NextToken Lookup l
        = (match fst (Lookup name) with
           | Some w => kKeyword w
           | None => kIdentifier
           end, Some token, l') /\
      last_token_may_end_value_ l'
        = match fst (Lookup name) with
          | Some _ => Flag_eqb (snd (Lookup name)) kIsValue
          | None => true
          end /\
      error_ l' = false.
Proof.
  intros Lookup l Hr He Hlt ch Hch n token name.
  destruct (reachable_between_tokens Lookup l Hr) as [Hd Hb].
  assert (Hb' : backslash_mode_ l = false).
  { destruct (backslash_mode_ l); [|reflexivity]. specialize (Hb eq_refl). lia. }
  unfold NextToken. rewrite (NextToken_running l He Hlt). cbv zeta.
  fold ch.
  change (set_token_start_index (Z.of_nat (index_ (set_token_start ch l)))
            (set_token_start ch l)) with (enter l).
  assert (Hsp : fst (IsSpace (enter l) ch 0) = false).
  { unfold IsSpace, fst, strchr. cbn [existsb].
    rewrite !(identifier_start_differs ch _ Hch) by (vm_compute; lia).
    reflexivity. }
  assert (Hls : fst (IsLineSeparator (enter l) ch 0) = false).
  { unfold IsLineSeparator, fst, strchr. cbn [existsb].
    rewrite !(identifier_start_differs ch _ Hch) by (vm_compute; lia).
    reflexivity. }
  assert (Hnum : IsNumber (enter l) ch 0 = (false, enter l)).
  { unfold IsNumber.
    rewrite (identifier_start_differs ch Ch.dot Hch) by (vm_compute; lia).
    rewrite (identifier_start_not_digit ch Hch). reflexivity. }
  assert (Hsl : Ascii.eqb ch Ch.slash = false)
    by (apply (identifier_start_differs ch _ Hch); vm_compute; lia).
  assert (Hq : Ascii.eqb ch Ch.dquote || Ascii.eqb ch Ch.squote = false).
  { rewrite !(identifier_start_differs ch _ Hch) by (vm_compute; lia).
    reflexivity. }
  rewrite Hsp, Hls, Hnum, Hsl, Hq.
  assert (Hstart : exists l2,
            IdentifierStart (enter l) ch = (true, l2) /\
            backslash_mode_ l2 = Ascii.eqb ch Ch.backslash /\
            input_ l2 = input_ l /\ index_ l2 = index_ l /\
            error_ l2 = false).
  { unfold IdentifierStart, ProcessBackslash.
    change (backslash_mode_ (enter l)) with (backslash_mode_ l). rewrite Hb'.
    fold (JsLexerSpec.is_identifier_start ch).
    destruct (Ascii.eqb ch Ch.backslash) eqn:Ebs.
    - eexists. split; [reflexivity|]. cbn. auto.
    - destruct Hch as [Hch | Hch];
        [|apply Ascii.eqb_neq in Ebs; contradiction].
      rewrite Hch. eexists. split; [reflexivity|]. cbn. auto. }
  destruct Hstart as (l2 & Hstart & Hbs & Hin & Hix & He2).
  rewrite Hstart.
  destruct (Consume_InIdentifier l2) as (l3 & HC & Hin3 & He3).
  rewrite Hbs, Hin, Hix in HC. fold n in HC. fold token in HC.
  rewrite HC, Hin3, Hin. fold name. unfold IdentifierOrKeyword.
  destruct (Lookup name) as [[w|] flag]; cbn [fst snd];
    (eexists; split; [reflexivity|]); cbn; split; congruence.
Qed.

Lemma X8_identifier_or_keyword_witness :
  exists l',
    NextToken sample_Lookup (Lex fresh (bytes "this/2"))
      = (kKeyword 0, Some (mkToken 0 4), l') /\
    last_token_may_end_value_ l' = true /\ error_ l' = false.
Proof.
  apply (X8_identifier_or_keyword sample_Lookup (Lex fresh (bytes "this/2"))).
  - apply reach_Lex.
  - reflexivity.
  - vm_compute. lia.
  - left. reflexivity.
Defined.

(** ** Operators *)

Lemma scan_InOperator_after_merge rest i l :
  token_start_ l = Ch.nul ->
  scan InOperator rest i l
  = match rest with
    | [] => (0, true, l)
    | c :: _ => (0, false, set_may_end (strchr [")"; "]"; "}"]%char c) l)
    end.
Proof.
  intros Hts. destruct rest as [|c rest]; [reflexivity|].
  cbn [scan]. unfold InOperator. rewrite Hts.
  cbn [Ascii.eqb Ch.nul Ch.plus Ch.minus Ch.slash Ch.star Bool.eqb orb andb].
  rewrite andb_false_r. reflexivity.
Qed.

Lemma Consume_InOperator l :
  let ch := token_start_ l in
  let rest := skipn (S (index_ l)) (input_ l) in
  let size := match rest with
              | next :: _ => if JsLexerSpec.merges ch next then 2 else 1
              | [] => 1
              end in
  exists l',
    Consume InOperator false true l = (mkToken (index_ l) size, l') /\
    error_ l' = error_ l /\
    last_token_may_end_value_ l'
      = match skipn (size - 1) rest with
        | c :: _ => strchr [")"; "]"; "}"]%char c
        | [] => last_token_may_end_value_ l
        end.
Proof.
  intros ch rest size. unfold Consume. cbn [input_ set_prev_char].
  fold rest. subst size. destruct rest as [|next rest2].
  - cbn [scan]. eexists. split; [reflexivity|]. cbn.
    rewrite orb_false_r. auto.
  - cbn [scan]. unfold InOperator at 1. cbn [token_start_ set_prev_char].
    fold ch.
    change (((Ascii.eqb ch Ch.plus || Ascii.eqb ch Ch.minus)
             && Ascii.eqb next ch)
            || (Ascii.eqb next Ch.equal &&
                (Ascii.eqb ch Ch.plus || Ascii.eqb ch Ch.minus ||
                 Ascii.eqb ch Ch.slash || Ascii.eqb ch Ch.star)))
      with (JsLexerSpec.merges ch next).
    destruct (JsLexerSpec.merges ch next).
    + rewrite scan_InOperator_after_merge by reflexivity.
      destruct rest2 as [|c rest3];
        (eexists; split; [reflexivity|]); cbn; rewrite ?orb_false_r; auto.
    + eexists. split; [reflexivity|]. cbn. auto.
Qed.

Lemma punctuation_dispatch ch l1 :
  JsLexerSpec.is_punctuation ch = true -> backslash_mode_ l1 = false ->
  fst (IsSpace l1 ch 0) = false /\
  fst (IsLineSeparator l1 ch 0) = false /\
  IsNumber l1 ch 0 = (false, l1) /\
  Ascii.eqb ch Ch.slash = false /\
  Ascii.eqb ch Ch.dquote || Ascii.eqb ch Ch.squote = false /\
  IdentifierStart l1 ch = (false, l1).
Proof.
  intros H Hb. unfold JsLexerSpec.is_punctuation in H.
  repeat (apply andb_prop in H; let H2 := fresh "P" in destruct H as [H H2]).
  rewrite negb_true_iff in *.
  split; [exact H|]. split; [assumption|].
  split.
  { unfold IsNumber. fold (JsLexerSpec.is_digit ch).
    repeat match goal with
           | E : _ = false |- _ => rewrite E
           end. reflexivity. }
  split; [assumption|]. split.
  { repeat match goal with
           | E : Ascii.eqb _ _ = false |- _ => rewrite E
           end. reflexivity. }
  unfold IdentifierStart, ProcessBackslash. rewrite Hb.
  fold (JsLexerSpec.is_identifier_start ch).
  repeat match goal with
         | E : _ = false |- _ => rewrite E
         end. reflexivity.
Qed.

(** X9: a byte that is none of the above (and does not open [<!--]) is an
    operator token of one byte, or of two bytes for [++], [--], [+=], [-=]
    and [*=]: a third [+], [-] or [=] is never taken.  The error flag is not
    raised.  When a byte follows the token, the may-end-value flag becomes
    whether that following byte is [)], []], [}] or NUL; when the token ends
    the buffer the flag keeps its value. *)
Theorem X9_operator_token :
  forall Lookup l,
    reachable Lookup l -> error_ l = false ->
    index_ l < List.length (input_ l) ->
    let ch := nth (index_ l) (input_ l) Ch.nul in
    JsLexerSpec.is_punctuation ch = true ->
    firstn 4 (skipn (index_ l) (input_ l)) <> bytes "<!--" ->
    let size := match skipn (S (index_ l)) (input_ l) with
                | next :: _ => if JsLexerSpec.merges ch next then 2 else 1
                | [] => 1
                end in
    exists l',
      NextToken Lookup l = (kOperator, Some (mkToken (index_ l) size), l') /\
      error_ l' = false /\
      last_token_may_end_value_ l'
        = match skipn (index_ l + size) (input_ l) with
          | c :: _ => strchr [")"; "]"; "}"]%char c
          | [] => last_token_may_end_value_ l
          end.
Proof.
  intros Lookup l Hr He Hlt ch Hp Hmark size.
  destruct (reachable_between_tokens Lookup l Hr) as [_ Hb].
  assert (Hb' : backslash_mode_ (enter l) = false).
  { change (backslash_mode_ (enter l)) with (backslash_mode_ l).
    destruct (backslash_mode_ l); [|reflexivity]. specialize (Hb eq_refl). lia. }
  destruct (punctuation_dispatch ch (enter l) Hp Hb')
    as (D1 & D2 & D3 & D4 & D5 & D6).
  unfold NextToken. rewrite (NextToken_running l He Hlt). cbv zeta.
  fold ch.
  change (set_token_start_index (Z.of_nat (index_ (set_token_start ch l)))
            (set_token_start ch l)) with (enter l).
  rewrite D1, D2, D3, D4, D5, D6.
  change (input_ (enter l)) with (input_ l).
  change (index_ (enter l)) with (index_ l).
  destruct (list_eq_dec ascii_dec _ _) as [Heq | _]; [contradiction|].
  destruct (Consume_InOperator (set_token_start ch (enter l)))
    as (l' & HC & Herr & Hflag).
  cbn [token_start_ input_ index_ error_ last_token_may_end_value_
       set_token_start enter set_token_start_index] in HC, Herr, Hflag.
  fold size in HC, Hflag. rewrite HC. exists l'.
  split; [reflexivity|]. split; [congruence|].
  rewrite Hflag, skipn_skipn.
  replace (size - 1 + S (index_ l)) with (index_ l + size); [reflexivity|].
  subst size. destruct (skipn (S (index_ l)) (input_ l)) as [|next r];
    [lia|]. destruct (JsLexerSpec.merges ch next); lia.
Qed.

Lemma X9_operator_token_witness :
  exists l',
    NextToken sample_Lookup (Lex fresh (bytes "+++a"))
      = (kOperator, Some (mkToken 0 2), l') /\
    error_ l' = false /\
    last_token_may_end_value_ l' = false.
Proof.
  apply (X9_operator_token sample_Lookup (Lex fresh (bytes "+++a"))).
  - apply reach_Lex.
  - reflexivity.
  - vm_compute. lia.
  - reflexivity.
  - vm_compute. discriminate.
Defined.

(** ** String literals *)

Lemma string_body_closed q : forall rest escaped n,
  JsLexerSpec.string_body escaped q rest = (n, false) ->
  exists m, n = S m /\ nth_error rest m = Some q.
Proof.
  induction rest as [|c rest IH]; intros escaped n H;
    cbn [JsLexerSpec.string_body] in H; [discriminate|].
  assert (Hcont : forall e,
    (let (n0, bad) := JsLexerSpec.string_body e q rest in (S n0, bad))
      = (n, false) ->
    exists m, n = S m /\ nth_error (c :: rest) m = Some q).
  { intros e Hc. destruct (JsLexerSpec.string_body e q rest) as [n0 bad] eqn:E.
    inversion Hc; subst. apply IH in E. destruct E as (m & -> & Hm).
    exists (S m). split; [reflexivity|exact Hm]. }
  destruct escaped; [eauto|].
  destruct (Ascii.eqb c Ch.backslash); [eauto|].
  destruct (Ascii.eqb c q) eqn:Eq; [|eauto].
  inversion H; subst. apply Ascii.eqb_eq in Eq. subst c.
  exists 0. split; reflexivity.
Qed.

Lemma string_body_open q : forall rest escaped n,
  JsLexerSpec.string_body escaped q rest = (n, true) ->
  n = List.length rest.
Proof.
  induction rest as [|c rest IH]; intros escaped n H;
    cbn [JsLexerSpec.string_body] in H; [inversion H; reflexivity|].
  assert (Hcont : forall e,
    (let (n0, bad) := JsLexerSpec.string_body e q rest in (S n0, bad))
      = (n, true) -> n = List.length (c :: rest)).
  { intros e Hc. destruct (JsLexerSpec.string_body e q rest) as [n0 bad] eqn:E.
    inversion Hc; subst. apply IH in E. subst n0. reflexivity. }
  destruct escaped; [eauto|].
  destruct (Ascii.eqb c Ch.backslash); [eauto|].
  destruct (Ascii.eqb c q); [discriminate|eauto].
Qed.

(** X10: a quote opens a string literal that runs to the next occurrence
    of the same quote that is not preceded by an escaping backslash, a
    backslash escaping whatever byte follows it.  The may-end-value flag is
    raised.  When there is no such quote the token runs to the end of the
    buffer and the error flag is raised; otherwise the error flag stays
    down. *)
Theorem X10_string_literal :
  forall Lookup l,
    reachable Lookup l -> error_ l = false ->
    index_ l < List.length (input_ l) ->
    let ch := nth (index_ l) (input_ l) Ch.nul in
    ch = Ch.dquote \/ ch = Ch.squote ->
    let body :=
      JsLexerSpec.string_body false ch (skipn (S (index_ l)) (input_ l)) in
    exists l',
      NextToken Lookup l
        = (kStringLiteral, Some (mkToken (index_ l) (S (fst body))), l') /\
      last_token_may_end_value_ l' = true /\
      error_ l' = snd body /\
      (snd body = false ->
       nth_error (input_ l) (index_ l + fst body) = Some ch) /\
      (snd body = true ->
       index_ l + S (fst body) = List.length (input_ l)).
Proof.
  intros Lookup l Hr He Hlt ch Hch body.
  destruct (NextToken_string Lookup l Hr He Hlt Hch) as (l' & HN & Herr & Hf).
  fold ch in HN, Herr. fold body in HN, Herr.
  exists l'. split; [exact HN|]. split; [exact Hf|]. split; [exact Herr|].
  destruct body as [n bad] eqn:Ebody. cbn [fst snd]. split.
  - intros ->. apply string_body_closed in Ebody.
    destruct Ebody as (m & -> & Hm). rewrite nth_error_skipn_at in Hm.
    replace (index_ l + S m) with (S (index_ l) + m) by lia. exact Hm.
  - intros ->. apply string_body_open in Ebody.
    rewrite length_skipn in Ebody. lia.
Qed.

Lemma X10_string_literal_witness :
  exists l',
    NextToken sample_Lookup (Lex fresh (bytes "'a" ++ [Ch.backslash] ++ bytes "'b' c"))
      = (kStringLiteral, Some (mkToken 0 6), l') /\
    last_token_may_end_value_ l' = true /\
    error_ l' = false.
Proof.
  destruct (X10_string_literal sample_Lookup
              (Lex fresh (bytes "'a" ++ [Ch.backslash] ++ bytes "'b' c"))
              (reach_Lex _ _ _) eq_refl ltac:(vm_compute; lia)
              (or_intror eq_refl))
    as (l' & H1 & H2 & H3 & _).
  exists l'. split; [exact H1|]. split; [exact H2|exact H3].
Defined.

(** ** Block comments *)

(** The [InBlockComment] loop computes [block_comment_body]. *)
Lemma scan_InBlockComment_body : forall rest i l n at_end l',
  scan InBlockComment rest i l = (n, at_end, l') ->
  JsLexerSpec.block_comment_body (prev_char_ l) rest
    = (if at_end then n else S n, at_end).
Proof.
  induction rest as [|c rest IH]; intros i l n at_end l' H.
  - simpl in H. inversion H; subst. reflexivity.
  - cbn [scan] in H. unfold InBlockComment at 1 in H.
    cbn [JsLexerSpec.block_comment_body].
    destruct (Ascii.eqb (prev_char_ l) Ch.star && Ascii.eqb c Ch.slash);
      cbn [negb] in H.
    + inversion H; subst. reflexivity.
    + destruct (scan InBlockComment rest (S i) _) as [[n0 e0] l2] eqn:E.
      inversion H; subst. apply IH in E. cbn [prev_char_ set_prev_char] in E.
      rewrite E. destruct at_end; reflexivity.
Qed.

Lemma block_comment_body_closed : forall rest prev n,
  JsLexerSpec.block_comment_body prev rest = (n, false) ->
  exists m, n = S m /\ nth_error rest m = Some Ch.slash /\
            nth_error (prev :: rest) m = Some Ch.star.
Proof.
  induction rest as [|c rest IH]; intros prev n H;
    cbn [JsLexerSpec.block_comment_body] in H; [discriminate|].
  destruct (Ascii.eqb prev Ch.star && Ascii.eqb c Ch.slash) eqn:E.
  - inversion H; subst. apply andb_prop in E. destruct E as [E1 E2].
    apply Ascii.eqb_eq in E1, E2. subst. exists 0. repeat split.
  - destruct (JsLexerSpec.block_comment_body c rest) as [n0 bad] eqn:Eb.
    inversion H; subst. apply IH in Eb. destruct Eb as (m & -> & H1 & H2).
    exists (S m). repeat split; assumption.
Qed.

Lemma block_comment_body_open : forall rest prev n,
  JsLexerSpec.block_comment_body prev rest = (n, true) ->
  n = List.length rest.
Proof.
  induction rest as [|c rest IH]; intros prev n H;
    cbn [JsLexerSpec.block_comment_body] in H; [inversion H; reflexivity|].
  destruct (Ascii.eqb prev Ch.star && Ascii.eqb c Ch.slash); [discriminate|].
  destruct (JsLexerSpec.block_comment_body c rest) as [n0 bad] eqn:Eb.
  inversion H; subst. apply IH in Eb. subst. reflexivity.
Qed.

Lemma block_comment_body_has_star_slash : forall rest prev,
  snd (JsLexerSpec.block_comment_body prev rest)
  = negb (JsLexerSpec.has_star_slash prev rest).
Proof.
  induction rest as [|c rest IH]; intros prev;
    cbn [JsLexerSpec.block_comment_body JsLexerSpec.has_star_slash];
    [reflexivity|].
  destruct (Ascii.eqb prev Ch.star && Ascii.eqb c Ch.slash); [reflexivity|].
  cbn [orb]. rewrite <- IH.
  destruct (JsLexerSpec.block_comment_body c rest); reflexivity.
Qed.

(** X11: [/*] opens a comment whose token runs to the first [/] that comes
    right after a [*], the [*] of the opening [/*] included, so that [/*/]
    is a complete comment for the lexer.  When no such [/] exists the token
    runs to the end of the buffer and the error flag is raised.  The
    may-end-value flag is left as it was. *)
Theorem X11_block_comment :
  forall Lookup l,
    error_ l = false -> S (index_ l) < List.length (input_ l) ->
    nth (index_ l) (input_ l) Ch.nul = Ch.slash ->
    nth (S (index_ l)) (input_ l) Ch.nul = Ch.star ->
    let body :=
      JsLexerSpec.block_comment_body Ch.slash
        (skipn (S (index_ l)) (input_ l)) in
    exists l',
      NextToken Lookup l
        = (kComment, Some (mkToken (index_ l) (S (fst body))), l') /\
      last_token_may_end_value_ l' = last_token_may_end_value_ l /\
      error_ l' = snd body /\
      snd body
        = negb (JsLexerSpec.has_star_slash Ch.star
                  (skipn (S (S (index_ l))) (input_ l))) /\
      (snd body = false ->
       nth_error (input_ l) (index_ l + fst body - 1) = Some Ch.star /\
       nth_error (input_ l) (index_ l + fst body) = Some Ch.slash) /\
      (snd body = true ->
       index_ l + S (fst body) = List.length (input_ l)).
Proof.
  intros Lookup l He Hlt Hch Hnext body.
  rewrite (NextToken_slash Lookup l He) by (auto; lia).
  unfold ConsumeSlash.
  assert (Hguard : (index_ (enter l) <? List.length (input_ (enter l)) - 1)
                   = true)
    by (apply Nat.ltb_lt; cbn; lia).
  rewrite Hguard, Nat.add_1_r.
  change (nth (S (index_ (enter l))) (input_ (enter l)) Ch.nul)
    with (nth (S (index_ l)) (input_ l) Ch.nul).
  rewrite Hnext. cbn [Ascii.eqb Ch.star Ch.slash Bool.eqb andb].
  unfold Consume.
  cbn [input_ index_ set_prev_char enter set_token_start
       set_token_start_index].
  destruct (scan InBlockComment _ 1 _) as [[n at_end] l1] eqn:E.
  pose proof (scan_keeps error_ InBlockComment
                ltac:(field_kept) (fun _ _ => eq_refl) _ _ _ _ _ _ E) as He1.
  pose proof (scan_keeps last_token_may_end_value_ InBlockComment
                ltac:(field_kept) (fun _ _ => eq_refl) _ _ _ _ _ _ E) as Hf1.
  pose proof (scan_frame _ frame_InBlockComment _ _ _ _ _ _ E)
    as (_ & Hix1 & _).
  apply scan_InBlockComment_body in E.
  cbn [prev_char_ error_ last_token_may_end_value_ index_ set_prev_char
       enter set_token_start set_token_start_index] in E, He1, Hf1, Hix1.
  rewrite Hch in E. fold body in E.
  assert (Hhas : snd body
    = negb (JsLexerSpec.has_star_slash Ch.star
              (skipn (S (S (index_ l))) (input_ l)))).
  { unfold body. rewrite block_comment_body_has_star_slash.
    rewrite (skipn_cons_nth Ch.nul (S (index_ l))) by lia. rewrite Hnext.
    reflexivity. }
  assert (Hshape :
    (snd body = false ->
     nth_error (input_ l) (index_ l + fst body - 1) = Some Ch.star /\
     nth_error (input_ l) (index_ l + fst body) = Some Ch.slash) /\
    (snd body = true -> index_ l + S (fst body) = List.length (input_ l))).
  { destruct body as [m bad] eqn:Ebody. cbn [fst snd]. split.
    - intros ->. apply block_comment_body_closed in Ebody.
      destruct Ebody as (m0 & -> & H1 & H2).
      rewrite nth_error_skipn_at in H1.
      destruct m0 as [|m1].
      + cbn in H2. discriminate.
      + cbn [nth_error] in H2. rewrite nth_error_skipn_at in H2.
        split.
        * replace (index_ l + S (S m1) - 1) with (S (index_ l) + m1) by lia.
          exact H2.
        * replace (index_ l + S (S m1)) with (S (index_ l) + S m1) by lia.
          exact H1.
    - intros ->. apply block_comment_body_open in Ebody.
      rewrite length_skipn in Ebody. lia. }
  rewrite E in *. cbn [fst snd] in *.
  destruct at_end; (eexists; split; [reflexivity|]);
    cbn [last_token_may_end_value_ error_ set_index set_error];
    rewrite ?orb_true_r; (split; [exact Hf1|]);
    (split; [congruence|]); (split; [exact Hhas|exact Hshape]).
Qed.

Lemma X11_block_comment_witness :
  exists l',
    NextToken sample_Lookup (Lex fresh (bytes "/* a */ b"))
      = (kComment, Some (mkToken 0 7), l') /\
    last_token_may_end_value_ l' = false /\
    error_ l' = false.
Proof.
  destruct (X11_block_comment sample_Lookup (Lex fresh (bytes "/* a */ b"))
              eq_refl ltac:(vm_compute; lia) eq_refl eq_refl)
    as (l' & H1 & H2 & H3 & _).
  exists l'. split; [exact H1|]. split; [exact H2|exact H3].
Defined.

End JsLexerMore.

(** * Further properties of the scanner *)

Module ScannerMore.
Import semantic_type StringUtil resource_tag_scanner ScannerFacts.
Local Open Scope string_scope.

(** ** What the switch can return *)

Lemma find_keyword_nth k : forall attrs j i a,
  HtmlElement.find_keyword k attrs j = Some (i, a) ->
  j <= i /\ nth_error attrs (i - j) = Some a.
Proof.
  induction attrs as [|a0 attrs IH]; intros j i a H; cbn in H;
    [discriminate|].
  destruct (HtmlName.Keyword_eqb (Attribute.keyword a0) k).
  - inversion H; subst. rewrite Nat.sub_diag. split; [lia|reflexivity].
  - apply IH in H. destruct H as [Hle Hn]. split; [lia|].
    replace (i - j) with (S (i - S j)) by lia. exact Hn.
Qed.

Lemma find_named_nth attribute_i : forall attrs j i a,
  find_named attribute_i attrs j = Some (i, a) ->
  j <= i /\ nth_error attrs (i - j) = Some a /\
  StringCaseEqual (Attribute.name_str a) attribute_i = true /\
  Attribute.decoding_error a = false.
Proof.
  induction attrs as [|a0 attrs IH]; intros j i a H; cbn in H;
    [discriminate|].
  destruct (StringCaseEqual (Attribute.name_str a0) attribute_i
            && negb (Attribute.decoding_error a0)) eqn:E.
  - inversion H; subst. rewrite Nat.sub_diag.
    apply andb_prop in E. destruct E as [E1 E2].
    apply negb_true_iff in E2. repeat split; auto.
  - apply IH in H. destruct H as (Hle & Hn & H1 & H2).
    repeat split; auto; [lia|].
    replace (i - j) with (S (i - S j)) by lia. exact Hn.
Qed.

Lemma scan_rel_values_defined values :
  scan_rel_values values kHyperlink <> kUndefined.
Proof.
  rewrite scan_rel_values_spec. unfold rel_category.
  destruct (existsb is_icon_value values); [discriminate|].
  destruct (existsb is_prefetch_value values); discriminate.
Qed.

(** The switch returns what [FindAttribute] found for some keyword, or
    nothing; and it leaves the category undefined only together with a
    null attribute. *)
Lemma builtin_shape IsStylesheetOrAlternate element :
  (fst (builtin IsStylesheetOrAlternate element) = None \/
   exists k, fst (builtin IsStylesheetOrAlternate element)
             = HtmlElement.FindAttribute element k) /\
  (snd (builtin IsStylesheetOrAlternate element) = kUndefined ->
   fst (builtin IsStylesheetOrAlternate element) = None).
Proof.
  unfold builtin.
  destruct (HtmlElement.keyword element);
    try (split; [right; eexists; reflexivity | discriminate]);
    try (split; [left; reflexivity | reflexivity]).
  - destruct (StringCaseEqual _ kAttrValImage);
      (split; [try (right; eexists; reflexivity); left; reflexivity
              | try discriminate; reflexivity]).
  - destruct (HtmlElement.FindAttribute element HtmlName.kRel)
      as [[i rel_attr]|].
    + destruct (IsStylesheetOrAlternate _); cbn [fst snd];
        (split; [right; eexists; reflexivity|]); try discriminate.
      intros H. elim (scan_rel_values_defined _ H).
    + split; [right; eexists; reflexivity | discriminate].
Qed.

(** X12: the attribute [ScanElement] returns is an attribute of the
    element it was given: the position it reports is inside the element's
    attribute list and holds exactly the attribute returned. *)
Theorem X12_returned_attribute_belongs_to_element :
  forall IsStylesheetOrAlternate element driver j a category,
    ScanElement IsStylesheetOrAlternate element driver
      = (Some (j, a), category) ->
    nth_error (HtmlElement.attributes element) j = Some a.
Proof.
  intros ISA element driver j a category H. unfold ScanElement in H.
  destruct (HtmlElement.attributes element) as [|a0 attrs] eqn:Ea;
    [discriminate|].
  destruct (builtin_shape ISA element) as [Hshape _].
  destruct (builtin ISA element) as [battr bcat]. cbn [fst] in Hshape.
  assert (Hbuiltin : battr = Some (j, a) ->
            nth_error (a0 :: attrs) j = Some a).
  { intros ->. destruct Hshape as [Hs | [k Hs]]; [discriminate|].
    symmetry in Hs. unfold HtmlElement.FindAttribute in Hs.
    rewrite Ea in Hs. apply find_keyword_nth in Hs.
    rewrite Nat.sub_0_r in Hs. exact (proj2 Hs). }
  assert (Hgate :
    (if IsAttributeInvalid battr || Category_eqb bcat kUndefined
     then (None, kUndefined) else (battr, bcat)) = (Some (j, a), category) ->
    nth_error (a0 :: attrs) j = Some a).
  { intros Hg.
    destruct (IsAttributeInvalid battr || Category_eqb bcat kUndefined);
      [discriminate|]. inversion Hg; subst. apply Hbuiltin. reflexivity. }
  destruct (IsAttributeInvalid battr); [|exact (Hgate H)].
  destruct driver as [rules|]; [|exact (Hgate H)].
  destruct (scan_rules element rules) as [[p c]|] eqn:E; [|exact (Hgate H)].
  inversion H; subst. clear - E Ea.
  induction rules as [|rule rules IH]; cbn in E; [discriminate|].
  destruct (StringCaseEqual (HtmlElement.name_str element) (element_i rule));
    [|exact (IH E)].
  destruct (find_named (attribute_i rule) (HtmlElement.attributes element) 0)
    as [q|] eqn:En; [|exact (IH E)].
  inversion E; subst. rewrite Ea in En. apply find_named_nth in En.
  rewrite Nat.sub_0_r in En. exact (proj1 (proj2 En)).
Qed.

Lemma X12_returned_attribute_belongs_to_element_witness :
  nth_error (HtmlElement.attributes link_prefetch_icon) 1
    = Some (attr_href "a.png").
Proof.
  apply (X12_returned_attribute_belongs_to_element
           sample_IsStylesheetOrAlternate link_prefetch_icon None 1
           (attr_href "a.png") kImage).
  reflexivity.
Defined.

(** ** Where a match comes from *)

Lemma scan_rules_sound element : forall rules p c,
  scan_rules element rules = Some (p, c) ->
  exists rule,
    In rule rules /\
    StringCaseEqual (HtmlElement.name_str element) (element_i rule) = true /\
    StringCaseEqual (Attribute.name_str (snd p)) (attribute_i rule) = true /\
    c = category_i rule.
Proof.
  induction rules as [|rule rules IH]; intros p c H; cbn in H;
    [discriminate|].
  assert (Hnext : scan_rules element rules = Some (p, c) ->
    exists r, In r (rule :: rules) /\
      StringCaseEqual (HtmlElement.name_str element) (element_i r) = true /\
      StringCaseEqual (Attribute.name_str (snd p)) (attribute_i r) = true /\
      c = category_i r).
  { intros Hn. destruct (IH _ _ Hn) as (r & H1 & H2).
    exists r. split; [right; exact H1|exact H2]. }
  destruct (StringCaseEqual (HtmlElement.name_str element) (element_i rule))
    eqn:En; [|exact (Hnext H)].
  destruct (find_named (attribute_i rule) (HtmlElement.attributes element) 0)
    as [[j a]|] eqn:Ef; [|exact (Hnext H)].
  inversion H; subst. apply find_named_nth in Ef.
  destruct Ef as (_ & _ & Hname & _).
  exists rule. repeat split; auto. left. reflexivity.
Qed.

(** X13: whatever [ScanElement] returns as a match is either exactly what
    the built-in table gives for the element, attribute and category, or
    it comes from a custom rule of the supplied list: the table's attribute
    is then null or failed to decode, the rule's element name equals the
    element's name and the rule's attribute name equals the returned
    attribute's name, both without regard to case, and the category is the
    rule's. *)
Theorem X13_match_is_builtin_or_rule :
  forall IsStylesheetOrAlternate element driver p category,
    ScanElement IsStylesheetOrAlternate element driver = (Some p, category) ->
    builtin IsStylesheetOrAlternate element = (Some p, category)
    \/
    (IsAttributeInvalid (fst (builtin IsStylesheetOrAlternate element)) = true
     /\
     exists rules rule,
       driver = Some rules /\ In rule rules /\
       StringCaseEqual (HtmlElement.name_str element) (element_i rule) = true
       /\
       StringCaseEqual (Attribute.name_str (snd p)) (attribute_i rule) = true
       /\
       category = category_i rule).
Proof.
  intros ISA element driver p category H. unfold ScanElement in H.
  destruct (HtmlElement.attributes element) as [|a0 attrs]; [discriminate|].
  destruct (builtin ISA element) as [battr bcat]. cbn [fst].
  assert (Hgate :
    (if IsAttributeInvalid battr || Category_eqb bcat kUndefined
     then (None, kUndefined) else (battr, bcat)) = (Some p, category) ->
    (battr, bcat) = (Some p, category)).
  { intros Hg.
    destruct (IsAttributeInvalid battr || Category_eqb bcat kUndefined);
      [discriminate|exact Hg]. }
  destruct (IsAttributeInvalid battr) eqn:Einv; [|left; exact (Hgate H)].
  destruct driver as [rules|]; [|left; exact (Hgate H)].
  destruct (scan_rules element rules) as [[q c]|] eqn:E;
    [|left; exact (Hgate H)].
  inversion H; subst. right. split; [reflexivity|].
  destruct (scan_rules_sound element rules p category E) as (rule & Hr).
  exists rules, rule. split; [reflexivity|exact Hr].
Qed.

Lemma X13_match_is_builtin_or_rule_witness :
  builtin sample_IsStylesheetOrAlternate div_data_src
    = (Some (0, attr_data_src "x.png"), kImage)
  \/
  (IsAttributeInvalid (fst (builtin sample_IsStylesheetOrAlternate div_data_src))
     = true /\
   exists rules rule,
     Some [mkRule "DIV" "Data-Src" kImage] = Some rules /\ In rule rules /\
     StringCaseEqual "div" (element_i rule) = true /\
     StringCaseEqual "data-src" (attribute_i rule) = true /\
     kImage = category_i rule).
Proof.
  apply (X13_match_is_builtin_or_rule sample_IsStylesheetOrAlternate
           div_data_src (Some [mkRule "DIV" "Data-Src" kImage])
           (0, attr_data_src "x.png") kImage).
  reflexivity.
Defined.

(** ** When nothing matches *)

Lemma list_prod_nil_r {A B} : forall l : list A, list_prod l (@nil B) = [].
Proof. induction l as [|x l IH]; cbn; [reflexivity|exact IH]. Qed.

Lemma builtin_invalid_without_attributes IsStylesheetOrAlternate element :
  HtmlElement.attributes element = [] ->
  fst (builtin IsStylesheetOrAlternate element) = None.
Proof.
  intros Ea. destruct (builtin_shape IsStylesheetOrAlternate element)
    as [[Hs | [k Hs]] _]; [exact Hs|].
  rewrite Hs. unfold HtmlElement.FindAttribute. rewrite Ea. reflexivity.
Qed.

(** X14: [ScanElement] reports no match exactly when the built-in
    attribute is null or failed to decode and, if a rule list was given, no
    rule matches a cleanly decoded attribute of the element.  In
    particular a match is always reported when the built-in attribute is
    present and decoded cleanly. *)
Theorem X14_no_match_iff :
  forall IsStylesheetOrAlternate element driver,
    fst (ScanElement IsStylesheetOrAlternate element driver) = None
    <->
    (IsAttributeInvalid (fst (builtin IsStylesheetOrAlternate element)) = true
     /\
     match driver with
     | Some rules => first_match element rules = None
     | None => True
     end).
Proof.
  intros ISA element driver.
  pose proof (builtin_shape ISA element) as [_ Hundef].
  pose proof (builtin_invalid_without_attributes ISA element) as Hempty.
  unfold ScanElement.
  destruct (HtmlElement.attributes element) as [|a0 attrs] eqn:Ea.
  - rewrite (Hempty eq_refl). cbn. split; [intros _|reflexivity].
    split; [reflexivity|]. destruct driver as [rules|]; [|exact I].
    unfold first_match, indexed. rewrite Ea. cbn [List.length seq combine].
    rewrite list_prod_nil_r. reflexivity.
  - clear Hempty.
    destruct (builtin ISA element) as [battr bcat]. cbn [fst snd] in *.
    destruct (IsAttributeInvalid battr) eqn:Einv.
    + cbn [orb]. destruct driver as [rules|].
      * rewrite scan_rules_spec.
        destruct (first_match element rules) as [[rule q]|]; cbn;
          split; auto; try discriminate. intros [_ Hc]. discriminate.
      * cbn. split; auto.
    + assert (Hc : Category_eqb bcat kUndefined = false).
      { destruct bcat; try reflexivity. specialize (Hundef eq_refl).
        subst battr. discriminate. }
      rewrite Hc. cbn [orb].
      assert (Hsome : battr <> None) by (intros ->; discriminate).
      destruct driver; cbn [fst]; split;
        try (intros [Hd _]; discriminate); intros Hn; contradiction.
Qed.

(** X15: without a rule list (a null driver) the result is the built-in
    attribute with its category if that attribute is present and decoded
    cleanly, and no match otherwise: the category test of the final gate
    and the early return on an empty attribute list change nothing. *)
Theorem X15_without_rules :
  forall IsStylesheetOrAlternate element,
    ScanElement IsStylesheetOrAlternate element None
    = match fst (builtin IsStylesheetOrAlternate element) with
      | Some (j, a) =>
          if Attribute.decoding_error a then (None, kUndefined)
          else (Some (j, a), snd (builtin IsStylesheetOrAlternate element))
      | None => (None, kUndefined)
      end.
Proof.
  intros ISA element.
  pose proof (builtin_shape ISA element) as [_ Hundef].
  pose proof (builtin_invalid_without_attributes ISA element) as Hempty.
  unfold ScanElement.
  destruct (HtmlElement.attributes element) as [|a0 attrs].
  - rewrite (Hempty eq_refl). reflexivity.
  - destruct (builtin ISA element) as [[[j a]|] bcat]; cbn [fst snd] in *.
    + cbn [IsAttributeInvalid].
      destruct (Attribute.decoding_error a); [reflexivity|]. cbn [orb].
      destruct bcat; try reflexivity. specialize (Hundef eq_refl).
      discriminate.
    + reflexivity.
Qed.

(** ** Links, inputs and the categories of the table *)

Lemma ScanElement_valid_builtin IsStylesheetOrAlternate element driver p c :
  builtin IsStylesheetOrAlternate element = (Some p, c) ->
  Attribute.decoding_error (snd p) = false ->
  ScanElement IsStylesheetOrAlternate element driver = (Some p, c).
Proof.
  intros Hb Hok.
  pose proof (builtin_shape IsStylesheetOrAlternate element) as [_ Hundef].
  pose proof (builtin_invalid_without_attributes IsStylesheetOrAlternate
                element) as Hempty.
  unfold ScanElement.
  destruct (HtmlElement.attributes element) as [|a0 attrs].
  - rewrite Hb in Hempty. specialize (Hempty eq_refl). discriminate.
  - rewrite Hb in *. cbn [fst snd] in *. destruct p as [j a].
    cbn [IsAttributeInvalid snd] in *. rewrite Hok. cbn [orb].
    destruct driver; destruct c; try reflexivity;
      specialize (Hundef eq_refl); discriminate.
Qed.

(** X16: the category of a link.  Without a [rel] attribute it is
    hyperlink; with a [rel] value that is a stylesheet value it is
    stylesheet, whatever tokens the value holds; otherwise it is image if
    the value holds an icon token, else prefetch if it holds a prefetch
    token, else hyperlink.  It is never script, other-resource or
    undefined, and whenever the link has a cleanly decoded [href],
    [ScanElement] returns that [href] with this category, with or without
    rules. *)
Theorem X16_link_category :
  forall (IsStylesheetOrAlternate : option string -> bool) element,
    HtmlElement.keyword element = HtmlName.kLink ->
    let category :=
      match HtmlElement.FindAttribute element HtmlName.kRel with
      | None => kHyperlink
      | Some (_, rel_attr) =>
          if IsStylesheetOrAlternate (Attribute.DecodedValueOrNull rel_attr)
          then kStylesheet
          else rel_category
                 (SplitStringPieceToVector
                    (StringPiece (Attribute.DecodedValueOrNull rel_attr)))
                 kHyperlink
      end in
    builtin IsStylesheetOrAlternate element
      = (HtmlElement.FindAttribute element HtmlName.kHref, category) /\
    (category = kHyperlink \/ category = kStylesheet \/
     category = kImage \/ category = kPrefetch) /\
    (forall driver href,
       HtmlElement.FindAttribute element HtmlName.kHref = Some href ->
       Attribute.decoding_error (snd href) = false ->
       ScanElement IsStylesheetOrAlternate element driver
         = (Some href, category)).
Proof.
  intros ISA element Hk category.
  assert (Hb : builtin ISA element
               = (HtmlElement.FindAttribute element HtmlName.kHref, category)).
  { unfold builtin, category. rewrite Hk.
    destruct (HtmlElement.FindAttribute element HtmlName.kRel)
      as [[i rel_attr]|]; [|reflexivity].
    destruct (ISA _); [reflexivity|]. rewrite scan_rel_values_spec.
    reflexivity. }
  split; [exact Hb|]. split.
  - unfold category, rel_category.
    destruct (HtmlElement.FindAttribute element HtmlName.kRel)
      as [[i rel_attr]|]; [|auto].
    destruct (ISA _); [auto|].
    destruct (existsb is_icon_value _); [auto|].
    destruct (existsb is_prefetch_value _); auto.
  - intros driver href Hhref Hok. apply ScanElement_valid_builtin; [|exact Hok].
    rewrite Hb, Hhref. reflexivity.
Qed.

Lemma X16_link_category_witness :
  ScanElement sample_IsStylesheetOrAlternate
    (HtmlElement.mk HtmlName.kLink "link"
       [attr_rel "Alternate StyleSheet"; attr_href "a.css"])
    (Some [mkRule "link" "href" kImage])
  = (Some (1, attr_href "a.css"), kStylesheet).
Proof.
  apply (proj2 (proj2 (X16_link_category sample_IsStylesheetOrAlternate
           (HtmlElement.mk HtmlName.kLink "link"
              [attr_rel "Alternate StyleSheet"; attr_href "a.css"])
           eq_refl))).
  - reflexivity.
  - reflexivity.
Defined.

(** X17: an [input] element is matched by the built-in table only when its
    [type] attribute decodes to [image], without regard to case.  When the
    [type] is absent, failed to decode or has another value, the [src] is
    not looked at: the result is whatever the custom rules give, and no
    match when there are none. *)
Theorem X17_input_needs_type_image :
  forall IsStylesheetOrAlternate element,
    HtmlElement.keyword element = HtmlName.kInput ->
    StringCaseEqual
      (StringPiece (HtmlElement.AttributeValue element HtmlName.kType))
      kAttrValImage = false ->
    ScanElement IsStylesheetOrAlternate element None = (None, kUndefined) /\
    (forall rules,
       ScanElement IsStylesheetOrAlternate element (Some rules)
       = match first_match element rules with
         | Some (rule, attribute_j) => (Some attribute_j, category_i rule)
         | None => (None, kUndefined)
         end).
Proof.
  intros ISA element Hk Htype.
  assert (Hb : builtin ISA element = (None, kUndefined)).
  { unfold builtin. rewrite Hk, Htype. reflexivity. }
  unfold ScanElement. rewrite Hb.
  destruct (HtmlElement.attributes element) as [|a0 attrs] eqn:Ea.
  - split; [reflexivity|]. intros rules.
    unfold first_match, indexed. rewrite Ea. cbn [List.length seq combine].
    rewrite list_prod_nil_r. reflexivity.
  - split; [reflexivity|]. intros rules. cbn [IsAttributeInvalid orb].
    rewrite scan_rules_spec.
    destruct (first_match element rules) as [[rule q]|]; reflexivity.
Qed.

Lemma X17_input_needs_type_image_witness :
  ScanElement sample_IsStylesheetOrAlternate
    (HtmlElement.mk HtmlName.kInput "input"
       [Attribute.mk HtmlName.kType "type" (Some "text") false;
        Attribute.mk HtmlName.kSrc "src" (Some "a.png") false])
    None
  = (None, kUndefined).
Proof.
  apply (proj1 (X17_input_needs_type_image sample_IsStylesheetOrAlternate
           (HtmlElement.mk HtmlName.kInput "input"
              [Attribute.mk HtmlName.kType "type" (Some "text") false;
               Attribute.mk HtmlName.kSrc "src" (Some "a.png") false])
           eq_refl eq_refl)).
Defined.

(** X18: which tags can give which built-in category.  Script comes only
    from [script]; stylesheet and prefetch only from [link]; other-resource
    only from [audio], [video], [source], [track], [embed], [frame],
    [iframe] and [html]; and the category is left undefined only for a tag
    outside the table or for an [input] (one that is not of type image):
    never for any other tag of the table. *)
Theorem X18_category_determines_tags :
  forall IsStylesheetOrAlternate element,
    let k := HtmlElement.keyword element in
    let category := snd (builtin IsStylesheetOrAlternate element) in
    (category = kScript -> k = HtmlName.kScript) /\
    (category = kStylesheet \/ category = kPrefetch -> k = HtmlName.kLink) /\
    (category = kOtherResource ->
     In k [HtmlName.kAudio; HtmlName.kVideo; HtmlName.kSource;
           HtmlName.kTrack; HtmlName.kEmbed; HtmlName.kFrame;
           HtmlName.kIframe; HtmlName.kHtml]) /\
    (category = kUndefined ->
     ~ In k [HtmlName.kLink; HtmlName.kScript; HtmlName.kImg; HtmlName.kBody;
             HtmlName.kTd; HtmlName.kTh; HtmlName.kTable; HtmlName.kTbody;
             HtmlName.kTfoot; HtmlName.kThead; HtmlName.kCommand;
             HtmlName.kA; HtmlName.kArea; HtmlName.kForm; HtmlName.kAudio;
             HtmlName.kVideo; HtmlName.kSource; HtmlName.kTrack;
             HtmlName.kEmbed; HtmlName.kFrame; HtmlName.kIframe;
             HtmlName.kHtml; HtmlName.kBlockquote; HtmlName.kQ;
             HtmlName.kIns; HtmlName.kDel; HtmlName.kButton]).
Proof.
  intros ISA element k category. subst k category. unfold builtin.
  destruct (HtmlElement.keyword element) eqn:Ek;
    try destruct (StringCaseEqual _ kAttrValImage);
    try (destruct (HtmlElement.FindAttribute element HtmlName.kRel)
           as [[i rel_attr]|];
         [destruct (ISA _);
          [|rewrite scan_rel_values_spec; unfold rel_category;
            destruct (existsb is_icon_value _);
            [|destruct (existsb is_prefetch_value _)]]|]);
    cbn [snd]; repeat split; intros H;
    first [ discriminate H
          | destruct H as [H | H]; discriminate H
          | reflexivity
          | solve [cbn; auto 20]
          | intros Hin; cbn in Hin; intuition discriminate ].
Qed.

End ScannerMore.
